(** * A shallow embedding of the GeeCache distributed cache (Go) and its
    specification.

    The development follows the packages of the [proto-buf] variant of the
    repository: [lru] (the byte-bounded LRU store), [geecache] (byte views,
    the cache shell, groups, the peer pool), [consistenthash] (the hash
    ring) and [singleflight] (the per-key coalescer). *)

From Stdlib Require Import String Ascii ZArith Lia List Sorting.Permutation Sorting.Sorted.
From stdpp Require Import base gmap strings list sorting.
Import ListNotations.
Open Scope Z_scope.

(* ------------------------------------------------------------------ *)
(** ** Byte views ([geecache/byteview.go]) *)

(** [type ByteView struct { b []byte }]; a byte is an [ascii] character,
    so a byte slice is a [string]. *)
Record ByteView := mkByteView { b : string }.

(** [func (v ByteView) Len() int { return len(v.b) }] *)
Definition Len (v : ByteView) : Z := Z.of_nat (String.length (b v)).

(** [cloneBytes] returns a fresh copy holding the same bytes. *)
Definition cloneBytes (s : string) : string := s.

(* ------------------------------------------------------------------ *)
(** ** The LRU store ([geecache/lru/lru.go]) *)

Module Lru.

(** [type entry struct { key string; value Value }] *)
Record entry := mkEntry { key : string; value : ByteView }.

(** The store.  [ll] is the recency list, front first.  The Go map
    [cache : map[string]*list.Element] is an index into [ll]: an element is
    identified by its key, and a lookup [c.cache[key]] is the search for the
    element of [ll] holding [key].  The eviction callback is [nil] in every
    store the cache shell creates ([lru.New(c.cacheBytes, nil)]).  The
    counters are [int64]; they are modelled as [Z], since a counter that
    sums the sizes of resident in-memory strings stays far below 2^63. *)
Record Cache := mkCache { maxBytes : Z; nbytes : Z; ll : list entry }.

(** [func New(maxBytes int64, onEvicted ...) *Cache] *)
Definition New (maxBytes : Z) : Cache := mkCache maxBytes 0 [].

(** [len(key) + value.Len()]: the bytes an entry accounts for. *)
Definition entry_size (e : entry) : Z :=
  Z.of_nat (String.length (key e)) + Len (value e).

(** [c.cache[key]]: the element holding [key]. *)
Fixpoint find_entry (k : string) (l : list entry) : option entry :=
  match l with
  | [] => None
  | e :: l' => if String.eqb (key e) k then Some e else find_entry k l'
  end.

(** Unlinking the element holding [k] from the list. *)
Fixpoint remove_key (k : string) (l : list entry) : list entry :=
  match l with
  | [] => []
  | e :: l' => if String.eqb (key e) k then l' else e :: remove_key k l'
  end.

(** [c.ll.Back()] *)
Fixpoint back (l : list entry) : option entry :=
  match l with
  | [] => None
  | [e] => Some e
  | _ :: l' => back l'
  end.

(** [RemoveOldest]: unlink the tail, delete it from the map, subtract its
    size. *)
Definition RemoveOldest (c : Cache) : Cache :=
  match back (ll c) with
  | None => c
  | Some kv => mkCache (maxBytes c) (nbytes c - entry_size kv) (removelast (ll c))
  end.

(** The guard of the eviction loop:
    [c.maxBytes != 0 && c.maxBytes < c.nbytes]. *)
Definition over (c : Cache) : bool :=
  negb (maxBytes c =? 0) && (maxBytes c <? nbytes c).

(** [for over(c) { c.RemoveOldest() }].  [n] is the length of the list:
    each round on a non-empty list removes one element, and once the list
    is empty [RemoveOldest] does nothing, so a guard that still holds there
    makes the loop spin for ever; [None] is that non-termination. *)
Fixpoint evict (n : nat) (c : Cache) : option Cache :=
  if over c then
    match n with
    | O => None
    | S n' => evict n' (RemoveOldest c)
    end
  else Some c.

(** [func (c *Cache) Add(key string, value Value)]; [None] when the call
    does not return. *)
Definition Add (k : string) (v : ByteView) (c : Cache) : option Cache :=
  let c1 :=
    match find_entry k (ll c) with
    | Some kv =>
        (* MoveToFront, counter adjusted by the difference, value replaced *)
        mkCache (maxBytes c) (nbytes c + Len v - Len (value kv))
                (mkEntry k v :: remove_key k (ll c))
    | None =>
        mkCache (maxBytes c) (nbytes c + Z.of_nat (String.length k) + Len v)
                (mkEntry k v :: ll c)
    end in
  evict (length (ll c1)) c1.

(** [func (c *Cache) Get(key string) (value Value, ok bool)] *)
Definition Get (k : string) (c : Cache) : option ByteView * Cache :=
  match find_entry k (ll c) with
  | Some kv => (Some (value kv), mkCache (maxBytes c) (nbytes c) (kv :: remove_key k (ll c)))
  | None => (None, c)
  end.

(** [func (c *Cache) Len() int] *)
Definition Length (c : Cache) : nat := length (ll c).

(** The bytes accounted for by a list of entries. *)
Fixpoint total (l : list entry) : Z :=
  match l with
  | [] => 0
  | e :: l' => entry_size e + total l'
  end.

(** The stores a program reaches from [New] through the three operations. *)
Inductive reachable : Cache -> Prop :=
| reach_new m : reachable (New m)
| reach_add k v c c' : reachable c -> Add k v c = Some c' -> reachable c'
| reach_get k c : reachable c -> reachable (snd (Get k c))
| reach_remove c : reachable c -> reachable (RemoveOldest c).

End Lru.

(* ------------------------------------------------------------------ *)
(** ** The hash ring ([consistenthash/consistenthash.go]) *)

Module ConsistentHash.

(** [type Hash func(data []byte) uint32], read as an [int] ([int(...)]). *)
Definition Hash := string -> Z.

(** [crc32.ChecksumIEEE]: reflected CRC-32 with polynomial 0xEDB88320. *)
Fixpoint crc_shift (n : nat) (crc : Z) : Z :=
  match n with
  | O => crc
  | S n' => crc_shift n'
      (if Z.testbit crc 0 then Z.lxor (Z.shiftr crc 1) 3988292384 else Z.shiftr crc 1)
  end.

Fixpoint crc_update (crc : Z) (s : string) : Z :=
  match s with
  | EmptyString => crc
  | String ch s' => crc_update (crc_shift 8 (Z.lxor crc (Z.of_N (Ascii.N_of_ascii ch)))) s'
  end.

Definition ChecksumIEEE : Hash :=
  fun s => Z.lxor (crc_update 4294967295 s) 4294967295.

(** [strconv.Itoa] on a non-negative index: its decimal rendering. *)
Fixpoint itoa_aux (fuel n : nat) (acc : string) : string :=
  match fuel with
  | O => acc
  | S f =>
      let acc' := String (Ascii.ascii_of_nat (48 + Nat.modulo n 10)) acc in
      if Nat.ltb n 10 then acc' else itoa_aux f (Nat.div n 10) acc'
  end.

Definition itoa (n : nat) : string := itoa_aux (S n) n EmptyString.

(** [sort.Ints]: the ascending rearrangement of the points (an insertion
    sort; every sort of integers yields the same sequence). *)
Fixpoint insert_int (x : Z) (l : list Z) : list Z :=
  match l with
  | [] => [x]
  | y :: l' => if Z.leb x y then x :: l else y :: insert_int x l'
  end.

Fixpoint sort_ints (l : list Z) : list Z :=
  match l with
  | [] => []
  | x :: l' => insert_int x (sort_ints l')
  end.

(** [sort.Search(n, f)]: Go's binary search loop
    [for i < j { h := (i+j)/2; if !f(h) { i = h+1 } else { j = h } }];
    [fuel] bounds the rounds ([j - i] shrinks every round). *)
Fixpoint search_loop (fuel : nat) (f : nat -> bool) (i j : nat) : nat :=
  match fuel with
  | O => i
  | S fuel' =>
      if Nat.ltb i j then
        let h := Nat.div (i + j) 2 in
        if f h then search_loop fuel' f i h else search_loop fuel' f (S h) j
      else i
  end.

Definition Search (n : nat) (f : nat -> bool) : nat := search_loop (S n) f 0 n.

(** [type Map struct { hash Hash; replicas int; keys []int; hashMap map[int]string }] *)
Record Map := mkMap {
  hash : Hash;
  replicas : Z;
  keys : list Z;
  hashMap : gmap Z string
}.

(** [func New(replicas int, fn Hash) *Map]; [None] is a nil [fn]. *)
Definition New (replicas : Z) (fn : option Hash) : Map :=
  mkMap (match fn with Some h => h | None => ChecksumIEEE end) replicas [] ∅.

(** One round of the inner loop of [Add], for index [i] of peer [key]:
    [hash := int(m.hash([]byte(strconv.Itoa(i) + key)))],
    [m.keys = append(m.keys, hash)], [m.hashMap[hash] = key]. *)
Definition add_vnode (key : string) (m : Map) (i : nat) : Map :=
  let h := hash m (itoa i ++ key)%string in
  mkMap (hash m) (replicas m) (keys m ++ [h]) (<[h := key]> (hashMap m)).

(** [for i := 0; i < m.replicas; i++ { ... }] for one peer. *)
Definition add_peer (m : Map) (key : string) : Map :=
  fold_left (add_vnode key) (seq 0 (Z.to_nat (replicas m))) m.

(** [func (m *Map) Add(keys ...string)]: all peers, then [sort.Ints(m.keys)]. *)
Definition Add (m : Map) (peers : list string) : Map :=
  let m' := fold_left add_peer peers m in
  mkMap (hash m') (replicas m') (sort_ints (keys m')) (hashMap m').

(** [m.hashMap[p]]: a missing key reads as the zero value [""]. *)
Definition owner (m : Map) (p : Z) : string :=
  match hashMap m !! p with Some s => s | None => EmptyString end.

(** [func (m *Map) Get(key string) string]; [Get] does not change the ring. *)
Definition Get (m : Map) (key : string) : string :=
  match keys m with
  | [] => EmptyString
  | _ =>
      let h := hash m key in
      let n := length (keys m) in
      let idx := Search n (fun i => Z.leb h (nth i (keys m) 0)) in
      owner m (nth (Nat.modulo idx n) (keys m) 0)
  end.

(** The virtual nodes [(H(decimal(i) ‖ P), P)], [i] in [[0, R)], of a peer. *)
Definition vnodes_of (H : Hash) (R : Z) (P : string) : list (Z * string) :=
  map (fun i => (H (itoa i ++ P)%string, P)) (seq 0 (Z.to_nat R)).

(** The rings built by [New(R, fn)] followed by calls to [Add]; [ps] is the
    list of every peer passed to [Add]. *)
Inductive built : list string -> Map -> Prop :=
| built_new R fn : built [] (New R fn)
| built_add ps qs m : built ps m -> built (ps ++ qs) (Add m qs).

End ConsistentHash.

(* ------------------------------------------------------------------ *)
(** ** The peer pool ([geecache/http.go]) *)

Module Pool.
Import ConsistentHash.

Definition defaultBasePath : string := "/_geecache/".
Definition defaultReplicas : Z := 50.

(** [type httpGetter struct { baseURL string }] *)
Record httpGetter := mkHttpGetter { baseURL : string }.

(** [type HTTPPool struct { self, basePath string; mu sync.Mutex;
    peers *consistenthash.Map; httpGetters map[string]*httpGetter }];
    a nil [peers] pointer is [None]. *)
Record HTTPPool := mkPool {
  self : string;
  basePath : string;
  peers : option Map;
  httpGetters : gmap string httpGetter
}.

(** [func NewHTTPPool(self string) *HTTPPool]: [peers] and [httpGetters]
    are left nil (a nil Go map reads as empty). *)
Definition NewHTTPPool (self : string) : HTTPPool :=
  mkPool self defaultBasePath None ∅.

(** [func (p *HTTPPool) Set(peers ...string)] *)
Definition Set_ (p : HTTPPool) (ps : list string) : HTTPPool :=
  mkPool (self p) (basePath p)
    (Some (Add (New defaultReplicas None) ps))
    (fold_left (fun g peer => <[peer := mkHttpGetter (peer ++ basePath p)%string]> g) ps ∅).

(** The outcomes of [PickPeer]: a run-time panic, [(getter, true)] (the
    getter [nil] when the map has no entry, [None]), or [(nil, false)]. *)
Inductive pick_result :=
| PickPanic
| Picked (g : option httpGetter)
| NoPeer.

(** [func (p *HTTPPool) PickPeer(key string) (PeerGetter, bool)].  With a
    nil ring, [p.peers.Get(key)] reads [len(m.keys)] through a nil
    pointer and panics. *)
Definition PickPeer (p : HTTPPool) (key : string) : pick_result :=
  match peers p with
  | None => PickPanic
  | Some ring =>
      let peer := Get ring key in
      if negb (String.eqb peer EmptyString) && negb (String.eqb peer (self p))
      then Picked (httpGetters p !! peer)
      else NoPeer
  end.

End Pool.

(* ------------------------------------------------------------------ *)
(** ** Groups ([geecache/geecache.go], [geecache/cache.go]) *)

Module Group.

(** A Go [error], by its message. *)
Definition error := string.

(** The result of a fallible call: Go's [(value, err)] with [err == nil]
    as [Ok]. *)
Inductive result (A : Type) := Ok (a : A) | Err (e : error).
Arguments Ok {A} a.
Arguments Err {A} e.

(** [type cache struct { mu sync.Mutex; lru *lru.Cache; cacheBytes int64 }];
    a nil [lru] is [None]. *)
Record cache := mkShell { lru : option Lru.Cache; cacheBytes : Z }.

(** [func (c *cache) add(key string, value ByteView)]; [None] when
    [lru.Add] does not return. *)
Definition cache_add (key : string) (v : ByteView) (c : cache) : option cache :=
  let l := match lru c with Some l => l | None => Lru.New (cacheBytes c) end in
  match Lru.Add key v l with
  | Some l' => Some (mkShell (Some l') (cacheBytes c))
  | None => None
  end.

(** [func (c *cache) get(key string) (value ByteView, ok bool)] *)
Definition cache_get (key : string) (c : cache) : option ByteView * cache :=
  match lru c with
  | None => (None, c)
  | Some l => let (r, l') := Lru.Get key l in (r, mkShell (Some l') (cacheBytes c))
  end.

(** [PeerGetter.Get(in *pb.Request, out *pb.Response) error]: the bytes of
    [out.Value], or the error, for a request [(group, key)]. *)
Definition PeerGetter := string -> string -> result string.

(** [PeerPicker.PickPeer(key) (PeerGetter, bool)] *)
Definition PeerPicker := string -> option PeerGetter.

(** [Getter.Get(key string) ([]byte, error)]: the backing loader. *)
Definition Getter := string -> result string.

(** [type Group struct { name; getter; mainCache; peers; loader }]: the
    immutable fields; [mainCache] is the state threaded through the calls.
    The [singleflight.Group] is modelled separately ([SingleFlight]); a
    call with no other caller in flight for its key runs [fn] once and
    leaves the coalescer's map as it found it. *)
Record Group := mkGroup { name : string; getter : Getter; peers : option PeerPicker }.

(** [func (g *Group) getFromPeer(peer PeerGetter, key string) (ByteView, error)] *)
Definition getFromPeer (g : Group) (peer : PeerGetter) (key : string) : result ByteView :=
  match peer (name g) key with
  | Ok v => Ok (mkByteView v)
  | Err e => Err e
  end.

(** [func (g *Group) getLocally(key string) (ByteView, error)]: load,
    clone, [populateCache], return. *)
Definition getLocally (g : Group) (key : string) (c : cache) : option (result ByteView * cache) :=
  match getter g key with
  | Err e => Some (Err e, c)
  | Ok bytes =>
      let value := mkByteView (cloneBytes bytes) in
      match cache_add key value c with
      | Some c' => Some (Ok value, c')
      | None => None
      end
  end.

(** The function [load] passes to [g.loader.Do]. *)
Definition load_fn (g : Group) (key : string) (c : cache) : option (result ByteView * cache) :=
  match peers g with
  | Some pick =>
      match pick key with
      | Some peer =>
          match getFromPeer g peer key with
          | Ok value => Some (Ok value, c)
          | Err _ => getLocally g key c
          end
      | None => getLocally g key c
      end
  | None => getLocally g key c
  end.

(** [func (g *Group) load(key string) (value ByteView, err error)]: the
    pair [(ByteView, error)] returned, [None] for the error [nil].  On an
    error the named result [value] is the zero [ByteView] (either never
    assigned or assigned [ByteView{}] by a failed [getFromPeer]), and
    [err] is overwritten by the error [Do] returns. *)
Definition load (g : Group) (key : string) (c : cache) : option ((ByteView * option error) * cache) :=
  match load_fn g key c with
  | Some (Ok v, c') => Some ((v, None), c')
  | Some (Err e, c') => Some ((mkByteView EmptyString, Some e), c')
  | None => None
  end.

(** [func (g *Group) Get(key string) (ByteView, error)] *)
Definition Get (g : Group) (key : string) (c : cache) : option ((ByteView * option error) * cache) :=
  if String.eqb key EmptyString then Some ((mkByteView EmptyString, Some "key is required"%string), c)
  else
    match cache_get key c with
    | (Some v, c') => Some ((v, None), c')
    | (None, c') => load g key c'
    end.

(** The registry [groups = make(map[string]*Group)]: group objects live
    in a heap of addresses, the map holds their addresses. *)
Record GroupObj := mkGroupObj { gname : string; ggetter : Getter; gcache : cache }.

Record Registry := mkRegistry {
  groups : gmap string nat;
  heap : gmap nat GroupObj;
  next : nat
}.

Definition empty_registry : Registry := mkRegistry ∅ ∅ 0.

(** [func NewGroup(name string, cacheBytes int64, getter Getter) *Group];
    a nil [getter] ([None]) panics ([None] result). *)
Definition NewGroup (n : string) (cacheBytes : Z) (getter : option Getter) (r : Registry)
  : option (nat * Registry) :=
  match getter with
  | None => None
  | Some gt =>
      let ptr := next r in
      Some (ptr, mkRegistry (<[n := ptr]> (groups r))
                            (<[ptr := mkGroupObj n gt (mkShell None cacheBytes)]> (heap r))
                            (S ptr))
  end.

(** [func GetGroup(name string) *Group]; [None] is [nil]. *)
Definition GetGroup (r : Registry) (n : string) : option nat := groups r !! n.

(** The registries a program reaches from the initial empty map. *)
Inductive reg_reachable : Registry -> Prop :=
| reg_init : reg_reachable empty_registry
| reg_new n cb gt r p r' :
    reg_reachable r -> NewGroup n cb gt r = Some (p, r') -> reg_reachable r'.

End Group.

(* ------------------------------------------------------------------ *)
(** ** Serving peers ([geecache/http.go], [HTTPPool.ServeHTTP]) *)

Module Serve.
Import Pool.

(** [pb.Response { Value []byte }], the message the handler marshals into
    the response body. *)
Record Response := mkResponse { Value : string }.

(** What the handler does with the [http.ResponseWriter]: panic,
    [http.Error(w, msg, code)], or a body with its [Content-Type]. *)
Inductive reply :=
| ServePanic (msg : string)
| HttpError (code : Z) (msg : string)
| Reply (contentType : string) (body : Response).

(** [r.URL.Path[len(p.basePath):]] *)
Definition drop_prefix (n : nat) (s : string) : string :=
  substring n (String.length s - n) s.

(** [strings.SplitN(s, "/", 2)] when it has two parts: the text before the
    first ["/"] and the rest; [None] when there is no ["/"] (one part). *)
Fixpoint split_slash (s : string) : option (string * string) :=
  match s with
  | EmptyString => None
  | String ch s' =>
      if Ascii.eqb ch "/"%char then Some (EmptyString, s')
      else match split_slash s' with
           | Some (a, r) => Some (String ch a, r)
           | None => None
           end
  end.

(** [func (p *HTTPPool) ServeHTTP(w, r)] for a request with path [path].
    [lookup name] is [GetGroup(name)] together with the group's
    [mainCache] ([None] for a nil group).  The result is the reply and the
    group's cache after the call ([None] when no group was reached); [None]
    overall when [group.Get] does not return.  [proto.Marshal] of a
    [pb.Response] does not fail, so its error branch is not reached; the
    body is the marshalled message, represented by the message itself.
    The logging calls have no effect on the result. *)
Definition ServeHTTP (p : HTTPPool) (lookup : string -> option (Group.Group * Group.cache))
    (path : string) : option (reply * option Group.cache) :=
  if negb (String.prefix (basePath p) path) then
    Some (ServePanic ("HTTPPool serving unexpected path: " ++ path)%string, None)
  else
    match split_slash (drop_prefix (String.length (basePath p)) path) with
    | None => Some (HttpError 400 "bad request", None)
    | Some (groupName, key) =>
        match lookup groupName with
        | None => Some (HttpError 404 ("no such group: " ++ groupName)%string, None)
        | Some (g, c) =>
            match Group.Get g key c with
            | None => None
            | Some ((_, Some e), c') => Some (HttpError 500 e, Some c')
            | Some ((view, None), c') =>
                Some (Reply "application/octet-stream" (mkResponse (cloneBytes (b view))), Some c')
            end
        end
    end.

End Serve.

(* ------------------------------------------------------------------ *)
(** ** The coalescer ([singleflight/singleflight.go]) *)

Module SingleFlight.
Section Coalescer.

(** The [(interface{}, error)] pair [fn] returns. *)
Context {R : Type}.

(** Where each caller of [Do(key, fn)] stands.  The call records
    [*call] are addresses into [calls]. *)
Inductive pc :=
| Enter (key : string)
    (* about to run [g.mu.Lock()] at the top of [Do] *)
| Waiting (key : string) (c : nat)
    (* found [c] in [g.m], unlocked, blocked in [c.wg.Wait()] *)
| Running (key : string) (c : nat)
    (* created [c], unlocked, running [fn()] *)
| Finished (key : string) (c : nat)
    (* [c.val, c.err] stored and [c.wg.Done()] done; about to delete *)
| Returned (key : string) (c : nat) (r : R) (invoked : bool)
    (* [Do] returned [r]; [invoked] when this caller ran [fn] *)
| Panicked (key : string) (c : nat).
    (* [fn()] panicked: [Do] has no [defer], so the panic leaves [Do]
       without [c.wg.Done()] and without [delete(g.m, key)] *)

(** The shared state: [g.m], the [call] records (their [val, err] once
    [wg.Done()] has run, [None] before), the next free address, the
    callers, and the log of [fn] invocations (key and record). *)
Record State := mkState {
  m : gmap string nat;
  calls : gmap nat (option R);
  next : nat;
  threads : list pc;
  log : list (string * nat)
}.

Definition init : State := mkState ∅ ∅ 0 [] [].

Definition set_thread (s : State) (i : nat) (t : pc) : State :=
  mkState (m s) (calls s) (next s) (<[i := t]> (threads s)) (log s).

(** One atomic step of one caller; the sections under [g.mu] are atomic. *)
Inductive step : State -> State -> Prop :=
| step_spawn s key :
    (* a new caller enters [Do(key, fn)] *)
    step s (mkState (m s) (calls s) (next s) (threads s ++ [Enter key]) (log s))
| step_attach s i key c :
    (* [if c, ok := g.m[key]; ok { g.mu.Unlock(); c.wg.Wait() ... }] *)
    threads s !! i = Some (Enter key) -> m s !! key = Some c ->
    step s (set_thread s i (Waiting key c))
| step_create s i key :
    (* [c := new(call); c.wg.Add(1); g.m[key] = c; g.mu.Unlock()], then [fn()] starts *)
    threads s !! i = Some (Enter key) -> m s !! key = None ->
    step s (mkState (<[key := next s]> (m s)) (<[next s := None]> (calls s)) (S (next s))
                    (<[i := Running key (next s)]> (threads s)) (log s ++ [(key, next s)]))
| step_fn_return s i key c r :
    (* [c.val, c.err = fn(); c.wg.Done()]: [fn] may return anything *)
    threads s !! i = Some (Running key c) ->
    step s (mkState (m s) (<[c := Some r]> (calls s)) (next s)
                    (<[i := Finished key c]> (threads s)) (log s))
| step_delete s i key c r :
    (* [g.mu.Lock(); delete(g.m, key); g.mu.Unlock(); return c.val, c.err] *)
    threads s !! i = Some (Finished key c) -> calls s !! c = Some (Some r) ->
    step s (mkState (delete key (m s)) (calls s) (next s)
                    (<[i := Returned key c r true]> (threads s)) (log s))
| step_wait s i key c r :
    (* [c.wg.Wait()] returns once [Done] has run; [return c.val, c.err] *)
    threads s !! i = Some (Waiting key c) -> calls s !! c = Some (Some r) ->
    step s (set_thread s i (Returned key c r false))
| step_fn_panic s i key c :
    (* [fn()] panics; the panic unwinds out of [Do] (the caller's
       goroutine, or a recovering [net/http] handler, goes on without it) *)
    threads s !! i = Some (Running key c) ->
    step s (set_thread s i (Panicked key c)).

(** The states of every interleaving from the initial empty map. *)
Inductive reachable : State -> Prop :=
| reach_init : reachable init
| reach_step s s' : reachable s -> step s s' -> reachable s'.

(** The record a caller is attached to, and the record whose [fn] it ran. *)
Definition refs (t : pc) : option nat :=
  match t with
  | Enter _ => None
  | Waiting _ c | Running _ c | Finished _ c | Returned _ c _ _ | Panicked _ c => Some c
  end.

Definition owner (t : pc) : option nat :=
  match t with
  | Running _ c | Finished _ c | Returned _ c _ true | Panicked _ c => Some c
  | _ => None
  end.

End Coalescer.
Arguments pc : clear implicits.
Arguments State : clear implicits.
End SingleFlight.

(* ================================================================== *)
(** * Proofs *)

Module LruFacts.
Import Lru.

Lemma entry_size_nonneg e : 0 <= entry_size e.
Proof. unfold entry_size, Len. lia. Qed.

Lemma total_nonneg l : 0 <= total l.
Proof. induction l as [|e l IH]; simpl; [lia|]. pose proof (entry_size_nonneg e). lia. Qed.

Lemma total_remove_key k l e :
  find_entry k l = Some e -> total (remove_key k l) = total l - entry_size e.
Proof.
  induction l as [|e' l IH]; simpl; [discriminate|].
  destruct (String.eqb (key e') k).
  - intros [= ->]. lia.
  - intros H. simpl. rewrite (IH H). lia.
Qed.

Lemma find_entry_key k l e : find_entry k l = Some e -> key e = k.
Proof.
  induction l as [|e' l IH]; simpl; [discriminate|].
  destruct (String.eqb (key e') k) eqn:Hk; [|exact IH].
  intros [= <-]. apply String.eqb_eq, Hk.
Qed.

Lemma total_removelast l e :
  back l = Some e -> total (removelast l) = total l - entry_size e.
Proof.
  induction l as [|e1 l IH]; [discriminate|].
  destruct l as [|e2 l].
  - simpl. intros [= ->]. lia.
  - intros H. change (total (e1 :: removelast (e2 :: l)) = total (e1 :: e2 :: l) - entry_size e).
    simpl in *. rewrite (IH H). simpl. lia.
Qed.

Lemma back_some l : l <> [] -> exists e, back l = Some e.
Proof.
  induction l as [|e1 l IH]; [congruence|]. intros _.
  destruct l as [|e2 l]; [eauto|]. apply IH. discriminate.
Qed.

Lemma length_removelast_cons (e : entry) (l : list entry) : length (removelast (e :: l)) = length l.
Proof.
  revert e. induction l as [|e2 l IH]; intros e; [reflexivity|].
  change (removelast (e :: e2 :: l)) with (e :: removelast (e2 :: l)).
  cbn [length]. rewrite IH. reflexivity.
Qed.

(** The counter invariant [nbytes = total ll]. *)
Definition counted (c : Cache) : Prop := nbytes c = total (ll c).

Lemma RemoveOldest_counted c : counted c -> counted (RemoveOldest c).
Proof.
  unfold counted, RemoveOldest. intros H.
  destruct (back (ll c)) as [e|] eqn:Hb; [|exact H].
  simpl. rewrite (total_removelast _ _ Hb). lia.
Qed.

Lemma evict_counted n c c' : counted c -> evict n c = Some c' -> counted c'.
Proof.
  revert c. induction n as [|n IH]; intros c Hc; simpl.
  - destruct (over c); [discriminate|]. intros [= <-]. exact Hc.
  - destruct (over c); [|intros [= <-]; exact Hc].
    apply IH, RemoveOldest_counted, Hc.
Qed.

Lemma evict_settled n c c' : evict n c = Some c' -> over c' = false.
Proof.
  revert c. induction n as [|n IH]; intros c; simpl;
    destruct (over c) eqn:Ho; try discriminate; try (intros [= <-]; exact Ho).
  apply IH.
Qed.

Lemma evict_maxBytes n c c' : evict n c = Some c' -> maxBytes c' = maxBytes c.
Proof.
  revert c. induction n as [|n IH]; intros c; simpl;
    destruct (over c); try discriminate; try (intros [= <-]; reflexivity).
  intros H. rewrite (IH _ H). unfold RemoveOldest. destruct (back (ll c)); reflexivity.
Qed.

Lemma Add_counted k v c c' : counted c -> Add k v c = Some c' -> counted c'.
Proof.
  unfold Add. intros Hc. apply evict_counted. unfold counted in *.
  destruct (find_entry k (ll c)) as [kv|] eqn:Hf; simpl.
  - rewrite (total_remove_key _ _ _ Hf). unfold entry_size in *. simpl.
    rewrite (find_entry_key _ _ _ Hf). lia.
  - unfold entry_size. simpl. lia.
Qed.

Lemma Get_counted k c : counted c -> counted (snd (Get k c)).
Proof.
  unfold Get, counted. intros Hc.
  destruct (find_entry k (ll c)) as [kv|] eqn:Hf; simpl; [|exact Hc].
  rewrite (total_remove_key _ _ _ Hf). lia.
Qed.

Lemma remove_key_absent k l : find_entry k l = None -> remove_key k l = l.
Proof.
  induction l as [|e l IH]; simpl; [reflexivity|].
  destruct (String.eqb (key e) k); [discriminate|]. intros H. rewrite (IH H). reflexivity.
Qed.

Lemma find_entry_perm k l e :
  find_entry k l = Some e -> Permutation (e :: remove_key k l) l.
Proof.
  induction l as [|e' l IH]; simpl; [discriminate|].
  destruct (String.eqb (key e') k).
  - intros [= ->]. reflexivity.
  - intros H. rewrite perm_swap. constructor. apply IH, H.
Qed.

(** A store whose front entry alone is larger than the (positive) capacity
    is emptied by the eviction loop: the front entry is the last to go. *)
Lemma evict_oversized_front n : forall c e rest,
  length rest = n -> ll c = e :: rest -> counted c ->
  0 < maxBytes c < entry_size e ->
  evict (S n) c = Some (mkCache (maxBytes c) 0 []).
Proof.
  induction n as [|n IH]; intros c e rest Hn Hl Hc Hm.
  - destruct rest; [|discriminate]. unfold counted in Hc. rewrite Hl in Hc. simpl in Hc.
    cbn [evict]. unfold over. rewrite Hc.
    replace (maxBytes c =? 0) with false by lia.
    replace (maxBytes c <? entry_size e + 0) with true by lia. simpl.
    unfold RemoveOldest. rewrite Hl. simpl. unfold over. simpl.
    replace (maxBytes c =? 0) with false by lia.
    replace (maxBytes c <? nbytes c - entry_size e) with false by lia.
    simpl. do 2 f_equal. lia.
  - destruct rest as [|e2 rest]; [discriminate|]. simpl in Hn.
    pose proof (total_nonneg (e2 :: rest)) as Ht. simpl in Ht.
    cbn [evict]. unfold over at 1.
    replace (maxBytes c =? 0) with false by lia.
    replace (maxBytes c <? nbytes c) with true
      by (unfold counted in Hc; rewrite Hl in Hc; simpl in Hc; lia). simpl.
    destruct (back_some (e2 :: rest)) as [x Hx]; [discriminate|].
    assert (Hr : RemoveOldest c =
              mkCache (maxBytes c) (nbytes c - entry_size x) (e :: removelast (e2 :: rest))).
    { unfold RemoveOldest. rewrite Hl. change (back (e :: e2 :: rest)) with (back (e2 :: rest)).
      rewrite Hx. reflexivity. }
    rewrite Hr. apply (IH (mkCache (maxBytes c) (nbytes c - entry_size x) (e :: removelast (e2 :: rest))) e (removelast (e2 :: rest))).
    + rewrite length_removelast_cons. lia.
    + reflexivity.
    + apply RemoveOldest_counted in Hc. unfold RemoveOldest in Hc. rewrite Hl in Hc.
      change (back (e :: e2 :: rest)) with (back (e2 :: rest)) in Hc. rewrite Hx in Hc.
      exact Hc.
    + exact Hm.
Qed.

Lemma reachable_counted c : reachable c -> counted c.
Proof.
  induction 1.
  - reflexivity.
  - eapply Add_counted; eassumption.
  - apply Get_counted. assumption.
  - apply RemoveOldest_counted. assumption.
Qed.

(** C2: when [Add] returns, the capacity is 0 or the counter is within it;
    with capacity 0, [Add] always returns without evicting anything (the
    new entry goes to the front and every other entry stays resident) and
    [Get] only reorders the entries. *)
Theorem add_capacity_bound :
  (forall k v c c', Add k v c = Some c' -> maxBytes c' = 0 \/ nbytes c' <= maxBytes c') /\
  (forall k v c, maxBytes c = 0 ->
     exists n, Add k v c = Some (mkCache 0 n (mkEntry k v :: remove_key k (ll c)))) /\
  (forall k c, maxBytes c = 0 -> Permutation (ll (snd (Get k c))) (ll c)).
Proof.
  split; [|split].
  - intros k v c c' H. apply evict_settled in H. unfold over in H.
    destruct (maxBytes c' =? 0) eqn:H0; [left; lia|].
    right. simpl in H. lia.
  - intros k v c H0. unfold Add.
    destruct (find_entry k (ll c)) as [kv|] eqn:Hf; cbn [ll];
      [|rewrite (remove_key_absent _ _ Hf)];
      (eexists; destruct (length _); cbn [evict]; unfold over; cbn [maxBytes];
       rewrite H0; reflexivity).
  - intros k c _. unfold Get.
    destruct (find_entry k (ll c)) as [kv|] eqn:Hf; [|reflexivity].
    apply find_entry_perm, Hf.
Qed.

Lemma add_capacity_bound_witness :
  Add "a" (mkByteView "bc") (New 10) = Some (mkCache 10 3 [mkEntry "a" (mkByteView "bc")]) /\
  (maxBytes (mkCache 10 3 [mkEntry "a" (mkByteView "bc")]) = 0 \/
   nbytes (mkCache 10 3 [mkEntry "a" (mkByteView "bc")])
     <= maxBytes (mkCache 10 3 [mkEntry "a" (mkByteView "bc")])) /\
  (exists n, Add "a" (mkByteView "bc") (New 0) =
     Some (mkCache 0 n (mkEntry "a" (mkByteView "bc") :: remove_key "a" (ll (New 0))))) /\
  Permutation (ll (snd (Get "a" (New 0)))) (ll (New 0)).
Proof.
  split; [reflexivity|]. split; [|split].
  - apply (proj1 add_capacity_bound "a" (mkByteView "bc") (New 10)). reflexivity.
  - apply (proj1 (proj2 add_capacity_bound)). reflexivity.
  - apply (proj2 (proj2 add_capacity_bound)). reflexivity.
Defined.

(** C3 (as stated): an entry larger than the capacity does not stay
    resident; inserting a 4-byte entry into an empty store of capacity 2
    leaves the store empty. *)
Lemma oversized_entry_not_resident :
  Add "key" (mkByteView "v") (New 2) = Some (mkCache 2 0 []) /\
  ~ (exists c', Add "key" (mkByteView "v") (New 2) = Some c' /\
                ll c' = [mkEntry "key" (mkByteView "v")]).
Proof.
  split; [reflexivity|]. intros (c' & H & Hl). vm_compute in H.
  injection H as <-. discriminate Hl.
Qed.

(** C3 (amended): in a store reached by the program, with capacity > 0,
    inserting an entry whose own size [len(key) + len(value)] exceeds the
    capacity makes the eviction loop remove every entry, the new one last:
    [Add] returns an empty store with counter 0. *)
Theorem add_oversized_empties :
  forall k v c, reachable c -> 0 < maxBytes c ->
  maxBytes c < Z.of_nat (String.length k) + Len v ->
  Add k v c = Some (mkCache (maxBytes c) 0 []).
Proof.
  intros k v c Hr Hpos Hbig. apply reachable_counted in Hr. unfold Add.
  destruct (find_entry k (ll c)) as [kv|] eqn:Hf; cbn [ll length].
  - refine (evict_oversized_front _
      (mkCache (maxBytes c) (nbytes c + Len v - Len (value kv)) (mkEntry k v :: remove_key k (ll c)))
      (mkEntry k v) _ eq_refl eq_refl _ _).
    + unfold counted in *. simpl. rewrite (total_remove_key _ _ _ Hf).
      unfold entry_size. simpl. rewrite (find_entry_key _ _ _ Hf). lia.
    + simpl. unfold entry_size. simpl. lia.
  - refine (evict_oversized_front _
      (mkCache (maxBytes c) (nbytes c + Z.of_nat (String.length k) + Len v) (mkEntry k v :: ll c))
      (mkEntry k v) _ eq_refl eq_refl _ _).
    + unfold counted in *. simpl. unfold entry_size. simpl. lia.
    + simpl. unfold entry_size. simpl. lia.
Qed.

Lemma add_oversized_empties_witness :
  reachable (New 2) /\ 0 < maxBytes (New 2) /\
  maxBytes (New 2) < Z.of_nat (String.length "key") + Len (mkByteView "v") /\
  Add "key" (mkByteView "v") (New 2) = Some (mkCache (maxBytes (New 2)) 0 []).
Proof.
  split; [constructor|]. split; [vm_compute; reflexivity|]. split; [vm_compute; reflexivity|].
  apply add_oversized_empties; [constructor | vm_compute; reflexivity | vm_compute; reflexivity].
Defined.

(** C4: in every store reached from [New] through [Add], [Get] and
    [RemoveOldest], the counter is the sum of [len(key) + len(value)] over
    the resident entries. *)
Theorem counter_is_total : forall c, reachable c -> nbytes c = total (ll c).
Proof. exact reachable_counted. Qed.

Lemma counter_is_total_witness :
  reachable (RemoveOldest (mkCache 10 3 [mkEntry "a" (mkByteView "bc")])) /\
  nbytes (RemoveOldest (mkCache 10 3 [mkEntry "a" (mkByteView "bc")])) =
  total (ll (RemoveOldest (mkCache 10 3 [mkEntry "a" (mkByteView "bc")]))).
Proof.
  assert (H : reachable (RemoveOldest (mkCache 10 3 [mkEntry "a" (mkByteView "bc")]))).
  { apply reach_remove. apply (reach_add "a" (mkByteView "bc") (New 10)); [constructor | reflexivity]. }
  split; [exact H | apply counter_is_total, H].
Defined.

End LruFacts.

Module RingTests.
Import ConsistentHash.
Example crc_check : ChecksumIEEE "123456789" = 3421780262.
Proof. vm_compute. reflexivity. Qed.
Example itoa_check : itoa 0 = "0" /\ itoa 7 = "7" /\ itoa 49 = "49" /\ itoa 120 = "120".
Proof. vm_compute. repeat split. Qed.
End RingTests.

Module RingFacts.
Import ConsistentHash.

(** *** [sort.Ints] *)

Lemma insert_int_perm x l : Permutation (insert_int x l) (x :: l).
Proof.
  induction l as [|y l IH]; simpl; [reflexivity|].
  destruct (Z.leb x y); [reflexivity|].
  rewrite IH. apply perm_swap.
Qed.

Lemma sort_ints_perm l : Permutation (sort_ints l) l.
Proof.
  induction l as [|x l IH]; simpl; [reflexivity|].
  rewrite insert_int_perm, IH. reflexivity.
Qed.

Lemma insert_int_hd y x l : y <= x -> HdRel Z.le y l -> HdRel Z.le y (insert_int x l).
Proof.
  intros Hyx Hd. destruct l as [|z l]; simpl; [constructor; exact Hyx|].
  destruct (Z.leb x z); constructor; [exact Hyx|]. inversion Hd; assumption.
Qed.

Lemma insert_int_sorted x l : Sorted Z.le l -> Sorted Z.le (insert_int x l).
Proof.
  induction l as [|y l IH]; simpl; intros Hs; [repeat constructor|].
  destruct (Z.leb x y) eqn:Hxy.
  - constructor; [exact Hs|]. constructor. apply Z.leb_le, Hxy.
  - apply Sorted_inv in Hs as [Hs Hd]. constructor; [apply IH, Hs|].
    apply insert_int_hd; [apply Z.leb_gt in Hxy; lia | exact Hd].
Qed.

Lemma sort_ints_sorted l : Sorted Z.le (sort_ints l).
Proof. induction l as [|x l IH]; simpl; [constructor | apply insert_int_sorted, IH]. Qed.

Lemma sorted_nth_le (l : list Z) i j :
  Sorted Z.le l -> (i <= j)%nat -> (j < length l)%nat -> nth i l 0 <= nth j l 0.
Proof.
  intros Hs. apply Sorted_StronglySorted in Hs; [|intros ???; lia].
  revert i j. induction Hs as [|x l Hs IH Hall]; intros i j Hij Hj; simpl in *; [lia|].
  destruct i as [|i], j as [|j]; try lia.
  - rewrite Forall_forall in Hall. apply Hall, list_elem_of_In, nth_In. lia.
  - apply IH; lia.
Qed.

(** *** The insertion loops of [Add] *)

(** The map writes [m.hashMap[h] = P], in order. *)
Definition write_all (w : list (Z * string)) (hm : gmap Z string) : gmap Z string :=
  fold_left (fun hm hp => <[fst hp := snd hp]> hm) w hm.

Lemma add_vnodes_spec P is m :
  fold_left (add_vnode P) is m =
  mkMap (hash m) (replicas m)
        (keys m ++ map (fun i => hash m (itoa i ++ P)%string) is)
        (write_all (map (fun i => (hash m (itoa i ++ P)%string, P)) is) (hashMap m)).
Proof.
  revert m. induction is as [|i is IH]; intros m; simpl.
  - rewrite app_nil_r. destruct m; reflexivity.
  - rewrite IH. simpl. rewrite <- app_assoc. reflexivity.
Qed.

Lemma add_peers_spec ps m :
  fold_left add_peer ps m =
  mkMap (hash m) (replicas m)
        (keys m ++ map fst (flat_map (vnodes_of (hash m) (replicas m)) ps))
        (write_all (flat_map (vnodes_of (hash m) (replicas m)) ps) (hashMap m)).
Proof.
  revert m. induction ps as [|P ps IH]; intros m; simpl.
  - rewrite app_nil_r. destruct m; reflexivity.
  - rewrite IH. unfold add_peer. rewrite add_vnodes_spec. simpl.
    unfold write_all. rewrite fold_left_app, map_app, app_assoc.
    unfold vnodes_of. rewrite map_map. reflexivity.
Qed.

Lemma write_all_app w1 w2 hm : write_all (w1 ++ w2) hm = write_all w2 (write_all w1 hm).
Proof. unfold write_all. apply fold_left_app. Qed.

Lemma write_all_other w hm h : h ∉ map fst w -> write_all w hm !! h = hm !! h.
Proof.
  revert hm. induction w as [|[h' P'] w IH]; intros hm Hn; simpl; [reflexivity|].
  simpl in Hn. rewrite IH by set_solver. apply lookup_insert_ne. set_solver.
Qed.

Lemma write_all_last w1 h P w2 hm :
  h ∉ map fst w2 -> write_all (w1 ++ (h, P) :: w2) hm !! h = Some P.
Proof.
  intros Hn. rewrite write_all_app. simpl. rewrite write_all_other by exact Hn.
  apply lookup_insert_eq.
Qed.

Lemma write_all_values w hm p Q :
  write_all w hm !! p = Some Q -> In Q (map snd w) \/ hm !! p = Some Q.
Proof.
  revert hm. induction w as [|[h P] w IH]; intros hm H; simpl in *; [right; exact H|].
  destruct (IH _ H) as [Hin|Hl]; [left; right; exact Hin|].
  destruct (decide (h = p)) as [->|Hne].
  - rewrite lookup_insert_eq in Hl. injection Hl as ->. left; left; reflexivity.
  - rewrite lookup_insert_ne in Hl by exact Hne. right. exact Hl.
Qed.

Lemma write_all_dom w hm p : In p (map fst w) -> exists Q, write_all w hm !! p = Some Q.
Proof.
  revert hm. induction w as [|[h P] w IH]; intros hm Hin; simpl in *; [contradiction|].
  destruct (in_dec Z.eq_dec p (map fst w)) as [Hw|Hw]; [apply IH, Hw|].
  destruct Hin as [->|Hin]; [|contradiction].
  rewrite write_all_other by (rewrite <- list_elem_of_In in Hw; exact Hw).
  rewrite lookup_insert_eq. eauto.
Qed.

(** *** [sort.Search] *)

Lemma search_loop_spec fuel f n : forall i j,
  (forall a c, (a <= c)%nat -> (c < n)%nat -> f a = true -> f c = true) ->
  (i <= j <= n)%nat -> (j - i <= fuel)%nat ->
  (forall k, (k < i)%nat -> f k = false) ->
  (forall k, (j <= k < n)%nat -> f k = true) ->
  (search_loop fuel f i j <= n)%nat /\
  (forall k, (k < search_loop fuel f i j)%nat -> f k = false) /\
  ((search_loop fuel f i j < n)%nat -> f (search_loop fuel f i j) = true).
Proof.
  induction fuel as [|fuel IH]; intros i j Hmono Hij Hfuel Hlo Hhi; cbn [search_loop].
  - assert (i = j) as <- by lia. split; [lia|]. split; [exact Hlo|].
    intros Hi. apply Hhi. lia.
  - destruct (Nat.ltb i j) eqn:Hlt.
    + apply Nat.ltb_lt in Hlt.
      pose proof (Nat.div_mod (i + j) 2 ltac:(lia)) as Hd.
      pose proof (Nat.mod_upper_bound (i + j) 2 ltac:(lia)) as Hm.
      set (h := Nat.div (i + j) 2) in *.
      destruct (f h) eqn:Hfh.
      * apply IH; [exact Hmono | lia | lia | exact Hlo |].
        intros k Hk. destruct (Nat.lt_ge_cases k j) as [Hkj|Hkj].
        -- apply (Hmono h); [lia | lia | exact Hfh].
        -- apply Hhi. lia.
      * apply IH; [exact Hmono | lia | lia | | exact Hhi].
        intros k Hk. destruct (f k) eqn:Hfk; [|reflexivity].
        rewrite (Hmono k h ltac:(lia) ltac:(lia) Hfk) in Hfh. discriminate.
    + apply Nat.ltb_ge in Hlt. assert (i = j) as <- by lia.
      split; [lia|]. split; [exact Hlo|]. intros Hi. apply Hhi. lia.
Qed.

Lemma Search_spec n f :
  (forall a c, (a <= c)%nat -> (c < n)%nat -> f a = true -> f c = true) ->
  (Search n f <= n)%nat /\ (forall k, (k < Search n f)%nat -> f k = false) /\
  ((Search n f < n)%nat -> f (Search n f) = true).
Proof.
  intros Hmono. apply search_loop_spec; [exact Hmono | lia | lia | intros; lia | intros; lia].
Qed.

(** *** Rings built by [New] and [Add] *)

Lemma Add_fields m qs :
  hash (Add m qs) = hash m /\ replicas (Add m qs) = replicas m /\
  keys (Add m qs) = sort_ints (keys m ++ map fst (flat_map (vnodes_of (hash m) (replicas m)) qs)) /\
  hashMap (Add m qs) = write_all (flat_map (vnodes_of (hash m) (replicas m)) qs) (hashMap m).
Proof. unfold Add. rewrite add_peers_spec. simpl. repeat split. Qed.

Lemma vnodes_length H R qs :
  length (flat_map (vnodes_of H R) qs) = (length qs * Z.to_nat R)%nat.
Proof.
  induction qs as [|P qs IH]; simpl; [reflexivity|].
  rewrite length_app, IH. unfold vnodes_of. rewrite length_map, length_seq. reflexivity.
Qed.

Lemma vnodes_peers H R qs Q : In Q (map snd (flat_map (vnodes_of H R) qs)) -> In Q qs.
Proof.
  induction qs as [|P qs IH]; simpl; [contradiction|].
  rewrite map_app, in_app_iff. intros [Hin|Hin]; [|right; apply IH, Hin].
  left. unfold vnodes_of in Hin. rewrite map_map in Hin. simpl in Hin.
  apply in_map_iff in Hin as (? & <- & _). reflexivity.
Qed.

Lemma write_all_keeps w hm p Q : hm !! p = Some Q -> exists Q', write_all w hm !! p = Some Q'.
Proof.
  intros H. destruct (in_dec Z.eq_dec p (map fst w)) as [Hin|Hn]; [apply write_all_dom, Hin|].
  exists Q. rewrite write_all_other; [exact H|]. rewrite list_elem_of_In. exact Hn.
Qed.

(** The ring invariant: the points are sorted, every point has an owner,
    and every owner is an added peer. *)
Definition ring_ok (ps : list string) (m : Map) : Prop :=
  Sorted Z.le (keys m) /\
  (forall p, In p (keys m) -> exists P, hashMap m !! p = Some P) /\
  (forall p P, hashMap m !! p = Some P -> In P ps) /\
  length (keys m) = (length ps * Z.to_nat (replicas m))%nat.

Lemma built_ok ps m : built ps m -> ring_ok ps m.
Proof.
  induction 1 as [R fn|ps qs m Hb (Hs & Hdom & Hval & Hlen)].
  - repeat split; simpl; [constructor | contradiction | intros ?? H; discriminate H].
  - destruct (Add_fields m qs) as (Hh & Hr & Hk & Hm). unfold ring_ok.
    rewrite Hk, Hm, Hr. split; [apply sort_ints_sorted|]. split; [|split].
    + intros p Hp. rewrite sort_ints_perm, in_app_iff in Hp. destruct Hp as [Hp|Hp].
      * destruct (Hdom p Hp) as [Q HQ]. eapply write_all_keeps, HQ.
      * apply write_all_dom, Hp.
    + intros p P HP. apply write_all_values in HP as [HP|HP]; apply in_or_app.
      * right. eapply vnodes_peers, HP.
      * left. eapply Hval, HP.
    + rewrite (Permutation_length (sort_ints_perm _)), length_app, length_map,
        vnodes_length, Hlen, length_app. lia.
Qed.

(** [Get] on a ring with sorted points returns the owner of the smallest
    point at or after [H(key)], or of the smallest point when every point
    is below [H(key)]. *)
Lemma Get_point m k :
  Sorted Z.le (keys m) -> keys m <> [] ->
  exists p, In p (keys m) /\ Get m k = owner m p /\
    ((hash m k <= p /\ forall q, In q (keys m) -> hash m k <= q -> p <= q) \/
     ((forall q, In q (keys m) -> q < hash m k) /\ forall q, In q (keys m) -> p <= q)).
Proof.
  intros Hs Hne. unfold Get. destruct (keys m) as [|x l'] eqn:Hk; [contradiction|].
  rewrite <- Hk in *.
  set (f := fun i => Z.leb (hash m k) (nth i (keys m) 0)).
  assert (Hmono : forall a c, (a <= c)%nat -> (c < length (keys m))%nat ->
                    f a = true -> f c = true).
  { unfold f. intros a c Hac Hc Ha. apply Z.leb_le in Ha. apply Z.leb_le.
    pose proof (sorted_nth_le _ a c Hs Hac Hc). lia. }
  destruct (Search_spec _ _ Hmono) as (Hle & Hlo & Hhi).
  set (r := Search (length (keys m)) f) in *.
  assert (Hn : length (keys m) <> 0%nat) by (destruct (keys m); simpl; congruence).
  destruct (Nat.lt_ge_cases r (length (keys m))) as [Hr|Hr].
  - rewrite Nat.mod_small by exact Hr.
    exists (nth r (keys m) 0). split; [apply nth_In, Hr|]. split; [reflexivity|].
    left. specialize (Hhi Hr). unfold f in Hhi. apply Z.leb_le in Hhi. split; [exact Hhi|].
    intros q Hq Hkq. apply (In_nth _ _ 0) in Hq as (j & Hj & <-).
    destruct (Nat.lt_ge_cases j r) as [Hjr|Hjr].
    + specialize (Hlo j Hjr). unfold f in Hlo. apply Z.leb_gt in Hlo. lia.
    + apply sorted_nth_le; assumption.
  - assert (r = length (keys m)) as Hreq by lia. rewrite Hreq, Nat.Div0.mod_same.
    exists (nth 0 (keys m) 0). split; [apply nth_In; lia|]. split; [reflexivity|].
    right. split.
    + intros q Hq. apply (In_nth _ _ 0) in Hq as (j & Hj & <-).
      assert (Hjr : (j < r)%nat) by lia. specialize (Hlo j Hjr). unfold f in Hlo.
      apply Z.leb_gt in Hlo. exact Hlo.
    + intros q Hq. apply (In_nth _ _ 0) in Hq as (j & Hj & <-).
      apply sorted_nth_le; [exact Hs | lia | exact Hj].
Qed.

Lemma owner_added ps m p : ring_ok ps m -> In p (keys m) -> In (owner m p) ps.
Proof.
  intros (_ & Hdom & Hval & _) Hp. destruct (Hdom p Hp) as [P HP].
  unfold owner. rewrite HP. eapply Hval, HP.
Qed.

Lemma get_in_added ps m k : built ps m -> keys m <> [] -> In (Get m k) ps.
Proof.
  intros Hb Hne. pose proof (built_ok _ _ Hb) as Hok. destruct Hok as (Hs & _).
  destruct (Get_point m k Hs Hne) as (p & Hp & Hget & _).
  rewrite Hget. apply (owner_added _ _ _ (built_ok _ _ Hb) Hp).
Qed.

Lemma get_no_points m k : keys m = [] -> Get m k = EmptyString.
Proof. intros Hk. unfold Get. rewrite Hk. reflexivity. Qed.

(** C7 (as stated): a ring of replica multiplier 0 to which a peer has been
    added has no points, and [Get] returns [""], which is not an added peer. *)
Lemma ring_zero_replicas_get_empty :
  built ([] ++ ["A"]) (Add (New 0 None) ["A"]) /\
  Get (Add (New 0 None) ["A"]) "x" = EmptyString /\
  ~ In (Get (Add (New 0 None) ["A"]) "x") ([] ++ ["A"]).
Proof.
  split; [repeat constructor|]. split; [vm_compute; reflexivity|].
  vm_compute. intros [H|H]; [discriminate H | exact H].
Qed.

(** C7 (amended): on a ring built by [New(R, fn)] and [Add]s, [Get]
    returns [""] when the ring has no points; the ring has points exactly
    when some peer has been added and [R >= 1], and then [Get(key)] is an
    added peer: the owner of the smallest point [>= H(key)], or of the
    smallest point when there is none.  [Get] is a function of the ring
    and leaves it unchanged, so repeated calls agree. *)
Theorem ring_get_owner ps m k :
  built ps m ->
  (keys m = [] -> Get m k = EmptyString) /\
  (keys m <> [] <-> ps <> [] /\ 1 <= replicas m) /\
  (keys m <> [] ->
   In (Get m k) ps /\
   exists p, In p (keys m) /\ Get m k = owner m p /\
     ((hash m k <= p /\ forall q, In q (keys m) -> hash m k <= q -> p <= q) \/
      ((forall q, In q (keys m) -> q < hash m k) /\ forall q, In q (keys m) -> p <= q))).
Proof.
  intros Hb. pose proof (built_ok _ _ Hb) as Hok.
  destruct (built_ok _ _ Hb) as (Hs & Hdom & Hval & Hlen).
  split; [|split].
  - intros Hk. unfold Get. rewrite Hk. reflexivity.
  - split.
    + intros Hk. destruct ps as [|P ps']; [destruct (keys m); [contradiction | discriminate]|].
      split; [discriminate|]. destruct (Z.le_gt_cases 1 (replicas m)) as [H1|H1]; [exact H1|].
      exfalso. replace (Z.to_nat (replicas m)) with 0%nat in Hlen by lia.
      rewrite Nat.mul_0_r in Hlen. destruct (keys m); [contradiction | discriminate].
    + intros [Hps HR] Hk. rewrite Hk in Hlen. simpl in Hlen.
      destruct ps; [contradiction|]. simpl in Hlen. lia.
  - intros Hne. destruct (Get_point m k Hs Hne) as (p & Hp & Hget & Hmin).
    split; [rewrite Hget; apply (owner_added _ _ _ Hok Hp)|].
    exists p. auto.
Qed.

Lemma ring_get_owner_witness :
  built ([] ++ ["6"; "4"; "2"]) (Add (New 3 None) ["6"; "4"; "2"]) /\
  In (Get (Add (New 3 None) ["6"; "4"; "2"]) "27") ([] ++ ["6"; "4"; "2"]).
Proof.
  assert (Hb : built ([] ++ ["6"; "4"; "2"]) (Add (New 3 None) ["6"; "4"; "2"]))
    by (repeat constructor).
  split; [exact Hb|].
  apply (proj1 (proj2 (proj2 (ring_get_owner _ _ "27" Hb)) ltac:(vm_compute; discriminate))).
Defined.

(** C8: [Add(peers)] appends, for each peer [P] in order and each [i] in
    [[0, R)], the point [H(decimal(i) ‖ P)] (exactly [R] points per peer),
    records the point as owned by [P] (a point written again later, by a
    colliding virtual node, is owned by its last writer), leaves every
    other entry of the map alone, and sorts the points ascending. *)
Theorem ring_add_points (m : Map) (ps : list string) :
  let W := flat_map (fun P => map (fun i => (hash m (itoa i ++ P)%string, P))
                                  (seq 0 (Z.to_nat (replicas m)))) ps in
  hash (Add m ps) = hash m /\ replicas (Add m ps) = replicas m /\
  Permutation (keys (Add m ps)) (keys m ++ map fst W) /\
  Sorted Z.le (keys (Add m ps)) /\
  (forall w1 h P w2, W = w1 ++ (h, P) :: w2 -> h ∉ map fst w2 ->
     hashMap (Add m ps) !! h = Some P) /\
  (forall h, h ∉ map fst W -> hashMap (Add m ps) !! h = hashMap m !! h).
Proof.
  intros W. destruct (Add_fields m ps) as (Hh & Hr & Hk & Hm).
  change (flat_map (vnodes_of (hash m) (replicas m)) ps) with W in Hk, Hm.
  split; [exact Hh|]. split; [exact Hr|]. split; [rewrite Hk; apply sort_ints_perm|].
  split; [rewrite Hk; apply sort_ints_sorted|]. split.
  - intros w1 h P w2 HW Hn. rewrite Hm, HW. apply write_all_last, Hn.
  - intros h Hn. rewrite Hm. apply write_all_other, Hn.
Qed.

Lemma ring_add_points_witness :
  hashMap (Add (New 2 None) ["A"]) !! ChecksumIEEE "1A" = Some "A" /\
  length (keys (Add (New 2 None) ["A"])) = 2%nat.
Proof.
  split.
  - apply (proj1 (proj2 (proj2 (proj2 (proj2 (ring_add_points (New 2 None) ["A"])))))
             [(ChecksumIEEE "0A", "A")] (ChecksumIEEE "1A") "A" []);
      [reflexivity | set_solver].
  - rewrite (Permutation_length (proj1 (proj2 (proj2 (ring_add_points (New 2 None) ["A"]))))).
    reflexivity.
Defined.

End RingFacts.

Module PoolFacts.
Import ConsistentHash Pool RingFacts.


(** C9: on a freshly constructed pool ([Set] never called), [PickPeer]
    does not return not-found, as the [PeerPicker] contract asks when no
    peer is available: [NewHTTPPool] leaves [p.peers] nil, and
    [p.peers.Get(key)] dereferences it and panics. *)
Lemma fresh_pool_pick_panics :
  PickPeer (NewHTTPPool "http://localhost:8001") "Tom" = PickPanic /\
  PickPeer (NewHTTPPool "http://localhost:8001") "Tom" <> NoPeer.
Proof. split; [reflexivity | discriminate]. Qed.



End PoolFacts.

Module GroupFacts.
Import Group.

Lemma cache_get_miss key c c' : cache_get key c = (None, c') -> c' = c.
Proof.
  unfold cache_get. destruct (lru c) as [l|] eqn:Hl; [|congruence].
  unfold Lru.Get. destruct (Lru.find_entry key (Lru.ll l)); [discriminate|].
  intros [= <-]. destruct c; simpl in *; subst; reflexivity.
Qed.

Lemma Get_miss g key c :
  key <> EmptyString -> fst (cache_get key c) = None -> Get g key c = load g key c.
Proof.
  intros Hk Hmiss. unfold Get. apply String.eqb_neq in Hk. rewrite Hk.
  destruct (cache_get key c) as [r c'] eqn:Hc. simpl in Hmiss. subst r.
  rewrite (cache_get_miss _ _ _ Hc). reflexivity.
Qed.

Lemma getLocally_cases g key c r :
  getLocally g key c = Some r ->
  (exists le, getter g key = Err le /\ r = (Err le, c)) \/
  (exists bs c', getter g key = Ok bs /\ cache_add key (mkByteView bs) c = Some c' /\
                 r = (Ok (mkByteView bs), c')).
Proof.
  unfold getLocally. destruct (getter g key) as [bs|le].
  - destruct (cache_add key (mkByteView (cloneBytes bs)) c) as [c'|] eqn:Ha; [|discriminate].
    intros [= <-]. right. exists bs, c'. auto.
  - intros [= <-]. left. eauto.
Qed.

Lemma load_local g key c :
  (peers g = None \/ exists pk, peers g = Some pk /\
     (pk key = None \/ exists peer e, pk key = Some peer /\ peer (name g) key = Err e)) ->
  load_fn g key c = getLocally g key c.
Proof.
  unfold load_fn. intros [->|(pk & -> & [->|(peer & e & -> & He)])]; try reflexivity.
  unfold getFromPeer. rewrite He. reflexivity.
Qed.

(** C5: when [Get] misses the cache and the key is routed to a peer whose
    fetch fails, the result is the loader's value or the loader's error;
    more generally, a loader error reaches the caller unchanged unless a
    peer served the value. *)
Theorem peer_error_masked :
  (forall g key c pk peer pe r,
     key <> EmptyString -> fst (cache_get key c) = None ->
     peers g = Some pk -> pk key = Some peer -> peer (name g) key = Err pe ->
     Get g key c = Some r ->
     (exists le, getter g key = Err le /\ fst r = (mkByteView EmptyString, Some le)) \/
     (exists bs, getter g key = Ok bs /\ fst r = (mkByteView bs, None))) /\
  (forall g key c le r,
     key <> EmptyString -> fst (cache_get key c) = None ->
     getter g key = Err le -> Get g key c = Some r ->
     snd (fst r) = Some le \/
     exists pk peer v, peers g = Some pk /\ pk key = Some peer /\
       peer (name g) key = Ok v /\ fst r = (mkByteView v, None)).
Proof.
  split.
  - intros g key c pk peer pe r Hk Hmiss Hp Hpk Hpe. rewrite (Get_miss _ _ _ Hk Hmiss).
    unfold load. rewrite load_local by (right; exists pk; split; [exact Hp | right; eauto]).
    destruct (getLocally g key c) as [r'|] eqn:Hl; [|discriminate].
    destruct (getLocally_cases _ _ _ _ Hl) as [(le & Hle & ->)|(bs & c' & Hbs & _ & ->)];
      intros [= <-]; [left | right]; eauto.
  - intros g key c le r Hk Hmiss Hle. rewrite (Get_miss _ _ _ Hk Hmiss). unfold load, load_fn.
    destruct (peers g) as [pk|] eqn:Hp.
    + destruct (pk key) as [peer|] eqn:Hpk.
      * unfold getFromPeer. destruct (peer (name g) key) as [v|e] eqn:Hv.
        -- intros [= <-]. right. exists pk, peer, v. auto.
        -- unfold getLocally. rewrite Hle. intros [= <-]. left. reflexivity.
      * unfold getLocally. rewrite Hle. intros [= <-]. left. reflexivity.
    + unfold getLocally. rewrite Hle. intros [= <-]. left. reflexivity.
Qed.

Lemma peer_error_masked_witness :
  let g := mkGroup "scores" (fun k => Err ("not exist")%string)
             (Some (fun _ => Some (fun _ _ => Err "server returned: 500"%string))) in
  Get g "Tom" (mkShell None 2048) =
    Some ((mkByteView EmptyString, Some "not exist"%string), mkShell None 2048) /\
  ((exists le, getter g "Tom" = Err le /\
     (mkByteView EmptyString, Some "not exist"%string) = (mkByteView EmptyString, Some le)) \/
   (exists bs, getter g "Tom" = Ok bs /\
     (mkByteView EmptyString, Some "not exist"%string) = (mkByteView bs, None))).
Proof.
  intros g. split; [reflexivity|].
  apply (proj1 peer_error_masked g "Tom" (mkShell None 2048)
           (fun _ => Some (fun _ _ => Err "server returned: 500"%string))
           (fun _ _ => Err "server returned: 500"%string) "server returned: 500"%string
           ((mkByteView EmptyString, Some "not exist"%string), mkShell None 2048));
    try reflexivity. discriminate.
Defined.

(** C6: a miss served by a successful peer fetch leaves the cache exactly
    as it was; a miss served by the loader returns the loaded value with
    the cache after [add(key, value)]. *)
Theorem peer_hit_not_cached :
  (forall g key c pk peer v,
     key <> EmptyString -> fst (cache_get key c) = None ->
     peers g = Some pk -> pk key = Some peer -> peer (name g) key = Ok v ->
     Get g key c = Some ((mkByteView v, None), c)) /\
  (forall g key c bs,
     key <> EmptyString -> fst (cache_get key c) = None ->
     (peers g = None \/ exists pk, peers g = Some pk /\
        (pk key = None \/ exists peer e, pk key = Some peer /\ peer (name g) key = Err e)) ->
     getter g key = Ok bs ->
     Get g key c = match cache_add key (mkByteView bs) c with
                   | Some c' => Some ((mkByteView bs, None), c')
                   | None => None
                   end).
Proof.
  split.
  - intros g key c pk peer v Hk Hmiss Hp Hpk Hv. rewrite (Get_miss _ _ _ Hk Hmiss).
    unfold load, load_fn. rewrite Hp, Hpk. unfold getFromPeer. rewrite Hv. reflexivity.
  - intros g key c bs Hk Hmiss Hloc Hbs. rewrite (Get_miss _ _ _ Hk Hmiss).
    unfold load. rewrite load_local by exact Hloc. unfold getLocally. rewrite Hbs.
    unfold cloneBytes. destruct (cache_add key (mkByteView bs) c); reflexivity.
Qed.

Lemma peer_hit_not_cached_witness :
  let g := mkGroup "scores" (fun k => Ok "630"%string)
             (Some (fun _ => Some (fun _ _ => Ok "630"%string))) in
  Get g "Tom" (mkShell None 2048) = Some ((mkByteView "630", None), mkShell None 2048).
Proof.
  intros g. apply (proj1 peer_hit_not_cached g "Tom" (mkShell None 2048)
                     (fun _ => Some (fun _ _ => Ok "630"%string)) (fun _ _ => Ok "630"%string));
    try reflexivity. discriminate.
Defined.

Lemma reg_ptrs_fresh r : reg_reachable r -> forall n q, groups r !! n = Some q -> (q < next r)%nat.
Proof.
  induction 1 as [|n cb [gt|] r p r' Hr IH Hnew]; simpl.
  - intros n q H. rewrite lookup_empty in H. discriminate.
  - injection Hnew as <- <-. simpl. intros n' q H.
    destruct (decide (n = n')) as [->|Hne].
    + rewrite lookup_insert_eq in H. injection H as <-. lia.
    + rewrite lookup_insert_ne in H by exact Hne. specialize (IH _ _ H). lia.
  - discriminate.
Qed.

(** C10: [NewGroup] with a name already registered does not fail; the
    registry entry for the name is replaced by the new group (a fresh
    object, distinct from the old one), and the other entries are left
    alone, so later lookups of the name return the latest group. *)
Theorem new_group_replaces r n cb gt :
  reg_reachable r ->
  exists p r', NewGroup n cb (Some gt) r = Some (p, r') /\
    GetGroup r' n = Some p /\
    heap r' !! p = Some (mkGroupObj n gt (mkShell None cb)) /\
    (forall old, GetGroup r n = Some old -> old <> p) /\
    (forall n', n' <> n -> GetGroup r' n' = GetGroup r n').
Proof.
  intros Hr. eexists _, _. split; [reflexivity|]. unfold GetGroup. simpl.
  split; [apply lookup_insert_eq|]. split; [apply lookup_insert_eq|]. split.
  - intros old Hold. pose proof (reg_ptrs_fresh _ Hr _ _ Hold). lia.
  - intros n' Hne. apply lookup_insert_ne. congruence.
Qed.

(** ["scores"] is registered (at address 0); registering ["scores"] again
    succeeds, and the name now points to the new group at another address. *)
Lemma new_group_replaces_witness :
  let g1 : Getter := fun _ => Ok "x"%string in
  let g2 : Getter := fun _ => Ok "y"%string in
  let r1 := mkRegistry (<["scores" := 0%nat]> ∅)
              (<[0%nat := mkGroupObj "scores" g1 (mkShell None 2048)]> ∅) 1 in
  reg_reachable r1 /\ GetGroup r1 "scores" = Some 0%nat /\
  exists p r', NewGroup "scores" 4096 (Some g2) r1 = Some (p, r') /\
    GetGroup r' "scores" = Some p /\ p <> 0%nat /\
    heap r' !! p = Some (mkGroupObj "scores" g2 (mkShell None 4096)) /\
    heap r' !! 0%nat = Some (mkGroupObj "scores" g1 (mkShell None 2048)).
Proof.
  intros g1 g2 r1.
  assert (Hr : reg_reachable r1).
  { apply (reg_new "scores" 2048 (Some g1) empty_registry 0%nat r1); [constructor | reflexivity]. }
  destruct (new_group_replaces r1 "scores" 4096 g2 Hr) as (p & r' & Hn & Hg & Hh & Hold & _).
  split; [exact Hr|]. split; [reflexivity|]. exists p, r'.
  split; [exact Hn|]. split; [exact Hg|].
  assert (Hp : p <> 0%nat) by (apply not_eq_sym, Hold; reflexivity).
  split; [exact Hp|]. split; [exact Hh|].
  injection Hn as <- <-. simpl. rewrite lookup_insert_ne by exact Hp. reflexivity.
Defined.

End GroupFacts.

Module SingleFlightFacts.
Import SingleFlight.
Section Proofs.
Context {R : Type}.
Implicit Types (s : State R) (t u : pc R).

Record Inv s : Prop := {
  inv_m : forall key c, m s !! key = Some c -> (c < next s)%nat /\ In c (map snd (log s));
  inv_refs : forall j t c, threads s !! j = Some t -> refs t = Some c ->
               (c < next s)%nat /\ In c (map snd (log s));
  inv_owner : forall i j t u c, threads s !! i = Some t -> threads s !! j = Some u ->
               owner t = Some c -> owner u = Some c -> i = j;
  inv_busy_m : forall j key c,
               threads s !! j = Some (Running key c) \/ threads s !! j = Some (Finished key c) ->
               m s !! key = Some c;
  inv_running : forall j key c, threads s !! j = Some (Running key c) -> calls s !! c = Some None;
  inv_returned : forall j key c r b, threads s !! j = Some (Returned key c r b) ->
               calls s !! c = Some (Some r);
  inv_removed : forall j key c r, threads s !! j = Some (Returned key c r true) ->
               m s !! key <> Some c;
  inv_nodup : List.NoDup (map snd (log s));
  inv_log : forall c, In c (map snd (log s)) -> (c < next s)%nat;
  inv_panicked : forall j key c, threads s !! j = Some (Panicked key c) ->
               m s !! key = Some c /\ calls s !! c = Some None
}.

Lemma owner_refs t c : owner t = Some c -> refs t = Some c.
Proof. destruct t as [| | | |? ? ? []|]; simpl; congruence. Qed.

Lemma NoDup_snoc (l : list nat) x : List.NoDup l -> ~ In x l -> List.NoDup (l ++ [x]).
Proof.
  intros Hl Hx. apply (Permutation_NoDup (l := x :: l)).
  - apply Permutation_cons_append.
  - constructor; assumption.
Qed.

Lemma Inv_init : Inv (@init R).
Proof.
  constructor; unfold init; cbn [m calls next threads log map].
  - intros key c H. rewrite lookup_empty in H. discriminate.
  - intros j t c H. rewrite lookup_nil in H. discriminate.
  - intros i j t u c H. rewrite lookup_nil in H. discriminate.
  - intros j key c [H|H]; rewrite lookup_nil in H; discriminate.
  - intros j key c H. rewrite lookup_nil in H. discriminate.
  - intros j key c r b H. rewrite lookup_nil in H. discriminate.
  - intros j key c r H. rewrite lookup_nil in H. discriminate.
  - constructor.
  - intros c [].
  - intros j key c H. rewrite lookup_nil in H. discriminate.
Qed.

Ltac ins H := apply list_lookup_insert_Some in H as [(?Heqi & ?Heqt & ?Hlt)|(?Hne & H)].

Lemma owner_insert (ts : list (pc R)) i t_old t_new :
  ts !! i = Some t_old -> (owner t_new = None \/ owner t_new = owner t_old) ->
  (forall i j t u c, ts !! i = Some t -> ts !! j = Some u ->
     owner t = Some c -> owner u = Some c -> i = j) ->
  forall i1 j1 t u c, <[i := t_new]> ts !! i1 = Some t -> <[i := t_new]> ts !! j1 = Some u ->
     owner t = Some c -> owner u = Some c -> i1 = j1.
Proof.
  intros Hi Hnew Ho i1 j1 t u c H1 H2 Ht Hu.
  ins H1; ins H2; subst; try reflexivity.
  - destruct Hnew as [Hn|Hn]; [congruence|]. rewrite Hn in Ht. eauto.
  - destruct Hnew as [Hn|Hn]; [congruence|]. rewrite Hn in Hu. eauto.
  - eauto.
Qed.

Lemma Inv_spawn s key :
  Inv s -> Inv (mkState (m s) (calls s) (next s) (threads s ++ [Enter key]) (log s)).
Proof.
  intros [Hm Hr Ho Hb Hrun Hret Hrem Hnd Hlog Hpan].
  constructor; cbn [m calls next threads log]; try assumption.
  - intros j t c H Hc. apply lookup_snoc_Some in H as [[_ H]|[_ <-]]; [eauto | discriminate].
  - intros i j t u c Hi Hj Ht Hu.
    apply lookup_snoc_Some in Hi as [[_ Hi]|[_ <-]]; [|discriminate].
    apply lookup_snoc_Some in Hj as [[_ Hj]|[_ <-]]; [eauto | discriminate].
  - intros j k c [H|H]; apply lookup_snoc_Some in H as [[_ H]|[_ H]];
      try discriminate; eauto.
  - intros j k c H. apply lookup_snoc_Some in H as [[_ H]|[_ H]]; [eauto | discriminate].
  - intros j k c r b H. apply lookup_snoc_Some in H as [[_ H]|[_ H]]; [eauto | discriminate].
  - intros j k c r H. apply lookup_snoc_Some in H as [[_ H]|[_ H]]; [eauto | discriminate].
  - intros j k c H. apply lookup_snoc_Some in H as [[_ H]|[_ H]]; [eauto | discriminate].
Qed.

Lemma Inv_attach s i key c :
  Inv s -> threads s !! i = Some (Enter key) -> m s !! key = Some c ->
  Inv (set_thread s i (Waiting key c)).
Proof.
  intros [Hm Hr Ho Hb Hrun Hret Hrem Hnd Hlog Hpan] Hi Hk. unfold set_thread.
  constructor; cbn [m calls next threads log]; try assumption.
  - intros j t c' H Hc. ins H; [subst; simpl in Hc; injection Hc as <-; eauto | eauto].
  - apply (owner_insert _ _ _ _ Hi); [left; reflexivity | exact Ho].
  - intros j k c' [H|H]; ins H; try (subst; discriminate); eauto.
  - intros j k c' H. ins H; [subst; discriminate | eauto].
  - intros j k c' r b H. ins H; [subst; discriminate | eauto].
  - intros j k c' r H. ins H; [subst; discriminate | eauto].
  - intros j k c' H. ins H; [subst; discriminate | eauto].
Qed.

Lemma Inv_create s i key :
  Inv s -> threads s !! i = Some (Enter key) -> m s !! key = None ->
  Inv (mkState (<[key := next s]> (m s)) (<[next s := None]> (calls s)) (S (next s))
               (<[i := Running key (next s)]> (threads s)) (log s ++ [(key, next s)])).
Proof.
  intros [Hm Hr Ho Hb Hrun Hret Hrem Hnd Hlog Hpan] Hi Hk.
  assert (Hnew : (next s < S (next s))%nat /\ In (next s) (map snd (log s ++ [(key, next s)]))).
  { split; [lia|]. rewrite map_app, in_app_iff. right. left. reflexivity. }
  assert (Hold : forall c, (c < next s)%nat /\ In c (map snd (log s)) ->
            (c < S (next s))%nat /\ In c (map snd (log s ++ [(key, next s)]))).
  { intros c [Hc Hin]. split; [lia|]. rewrite map_app, in_app_iff. left. exact Hin. }
  assert (Hrefs : forall j t c, threads s !! j = Some t -> refs t = Some c -> c <> next s).
  { intros j t c H Hc. destruct (Hr _ _ _ H Hc). lia. }
  constructor; cbn [m calls next threads log].
  - intros k c H. destruct (decide (key = k)) as [<-|Hne].
    + rewrite lookup_insert_eq in H. injection H as <-. exact Hnew.
    + rewrite lookup_insert_ne in H by exact Hne. apply Hold. eauto.
  - intros j t c H Hc. ins H.
    + subst. simpl in Hc. injection Hc as <-. exact Hnew.
    + apply Hold. eauto.
  - intros i1 j1 t u c H1 H2 Ht Hu. ins H1; ins H2; subst; try reflexivity.
    + simpl in Ht. injection Ht as <-. apply owner_refs in Hu. exfalso. eapply Hrefs; eauto.
    + simpl in Hu. injection Hu as <-. apply owner_refs in Ht. exfalso. eapply Hrefs; eauto.
    + eauto.
  - intros j k c [H|H]; ins H.
    + injection Heqt as <- <-. apply lookup_insert_eq.
    + rewrite lookup_insert_ne; [eauto|]. intros <-. rewrite (Hb j key c (or_introl H)) in Hk.
      discriminate.
    + discriminate.
    + rewrite lookup_insert_ne; [eauto|]. intros <-. rewrite (Hb j key c (or_intror H)) in Hk.
      discriminate.
  - intros j k c H. ins H.
    + injection Heqt as <- <-. apply lookup_insert_eq.
    + rewrite lookup_insert_ne; [eauto|]. intros Heq. apply (Hrefs _ _ _ H eq_refl). congruence.
  - intros j k c r b H. ins H; [discriminate|].
    rewrite lookup_insert_ne; [eauto|]. intros Heq. apply (Hrefs _ _ _ H eq_refl). congruence.
  - intros j k c r H. ins H; [discriminate|].
    destruct (decide (key = k)) as [<-|Hkk].
    + rewrite lookup_insert_eq. intros [= Heq]. apply (Hrefs _ _ _ H eq_refl). congruence.
    + rewrite lookup_insert_ne by exact Hkk. eauto.
  - rewrite map_app. apply NoDup_snoc; [exact Hnd|]. intros Hin. specialize (Hlog _ Hin). simpl in Hlog. lia.
  - intros c Hin. rewrite map_app, in_app_iff in Hin. destruct Hin as [Hin|[<-|[]]].
    + specialize (Hlog _ Hin). lia.
    + simpl. lia.
  - intros j k c H. ins H; [discriminate|]. destruct (Hpan _ _ _ H) as [H1 H2]. split.
    + rewrite lookup_insert_ne; [exact H1|]. intros <-. congruence.
    + rewrite lookup_insert_ne; [exact H2|]. intros Heq. apply (Hrefs _ _ _ H eq_refl). congruence.
Qed.

Lemma Inv_fn_return s i key c r :
  Inv s -> threads s !! i = Some (Running key c) ->
  Inv (mkState (m s) (<[c := Some r]> (calls s)) (next s)
               (<[i := Finished key c]> (threads s)) (log s)).
Proof.
  intros [Hm Hr Ho Hb Hrun Hret Hrem Hnd Hlog Hpan] Hi.
  constructor; cbn [m calls next threads log]; try assumption.
  - intros j t c' H Hc. ins H; [subst; simpl in Hc; injection Hc as <-; eauto | eauto].
  - apply (owner_insert _ _ _ _ Hi); [right; reflexivity | exact Ho].
  - intros j k c' [H|H]; ins H; try discriminate; eauto.
    injection Heqt as <- <-. eauto.
  - intros j k c' H. ins H; [discriminate|].
    rewrite lookup_insert_ne; [eauto|]. intros <-.
    apply Hne, (Ho i j (Running key c) (Running k c) c); auto.
  - intros j k c' r' b H. ins H; [discriminate|].
    rewrite lookup_insert_ne; [eauto|]. intros <-.
    specialize (Hret _ _ _ _ _ H). rewrite (Hrun _ _ _ Hi) in Hret. discriminate.
  - intros j k c' r' H. ins H; [discriminate | eauto].
  - intros j k c' H. ins H; [discriminate|]. destruct (Hpan _ _ _ H) as [H1 H2]. split; [exact H1|].
    rewrite lookup_insert_ne; [exact H2|]. intros <-.
    apply Hne, (Ho i j (Running key c) (Panicked k c) c); auto.
Qed.

Lemma Inv_delete s i key c r :
  Inv s -> threads s !! i = Some (Finished key c) -> calls s !! c = Some (Some r) ->
  Inv (mkState (delete key (m s)) (calls s) (next s)
               (<[i := Returned key c r true]> (threads s)) (log s)).
Proof.
  intros [Hm Hr Ho Hb Hrun Hret Hrem Hnd Hlog Hpan] Hi Hc.
  assert (Hkc : m s !! key = Some c) by eauto.
  constructor; cbn [m calls next threads log]; try assumption.
  - intros k c' H. apply lookup_delete_Some in H as [_ H]. eauto.
  - intros j t c' H Hc'. ins H; [subst; simpl in Hc'; injection Hc' as <-; eauto | eauto].
  - apply (owner_insert _ _ _ _ Hi); [right; reflexivity | exact Ho].
  - intros j k c' [H|H]; ins H; try discriminate;
      (destruct (decide (key = k)) as [<-|Hkk];
       [exfalso; assert (c' = c) as -> by (pose proof (Hb j key c' ltac:(auto)); congruence);
        apply Hne; eapply (Ho i j); [exact Hi | exact H | reflexivity | reflexivity]
       | rewrite lookup_delete_ne by exact Hkk; eauto]).
  - intros j k c' H. ins H; [discriminate | eauto].
  - intros j k c' r' b H. ins H; [injection Heqt as <- <- <- <-; exact Hc | eauto].
  - intros j k c' r' H. ins H.
    + injection Heqt as <- <- <-. rewrite lookup_delete_eq. discriminate.
    + destruct (decide (key = k)) as [<-|Hkk].
      * rewrite lookup_delete_eq. discriminate.
      * rewrite lookup_delete_ne by exact Hkk. eauto.
  - intros j k c' H. ins H; [discriminate|]. destruct (Hpan _ _ _ H) as [H1 H2]. split; [|exact H2].
    destruct (decide (key = k)) as [<-|Hkk].
    + exfalso. assert (c' = c) as -> by congruence.
      apply Hne. eapply (Ho i j); [exact Hi | exact H | reflexivity | reflexivity].
    + rewrite lookup_delete_ne by exact Hkk. exact H1.
Qed.

Lemma Inv_wait s i key c r :
  Inv s -> threads s !! i = Some (Waiting key c) -> calls s !! c = Some (Some r) ->
  Inv (set_thread s i (Returned key c r false)).
Proof.
  intros [Hm Hr Ho Hb Hrun Hret Hrem Hnd Hlog Hpan] Hi Hc. unfold set_thread.
  constructor; cbn [m calls next threads log]; try assumption.
  - intros j t c' H Hc'. ins H; [subst; simpl in Hc'; injection Hc' as <-; eauto | eauto].
  - apply (owner_insert _ _ _ _ Hi); [left; reflexivity | exact Ho].
  - intros j k c' [H|H]; ins H; try discriminate; eauto.
  - intros j k c' H. ins H; [discriminate | eauto].
  - intros j k c' r' b H. ins H; [injection Heqt as <- <- <- <-; exact Hc | eauto].
  - intros j k c' r' H. ins H; [discriminate | eauto].
  - intros j k c' H. ins H; [discriminate | eauto].
Qed.

Lemma Inv_panic s i key c :
  Inv s -> threads s !! i = Some (Running key c) ->
  Inv (set_thread s i (Panicked key c)).
Proof.
  intros [Hm Hr Ho Hb Hrun Hret Hrem Hnd Hlog Hpan] Hi. unfold set_thread.
  constructor; cbn [m calls next threads log]; try assumption.
  - intros j t c' H Hc. ins H; [subst; simpl in Hc; injection Hc as <-; eauto | eauto].
  - apply (owner_insert _ _ _ _ Hi); [right; reflexivity | exact Ho].
  - intros j k c' [H|H]; ins H; try discriminate; eauto.
  - intros j k c' H. ins H; [discriminate | eauto].
  - intros j k c' r b H. ins H; [discriminate | eauto].
  - intros j k c' r H. ins H; [discriminate | eauto].
  - intros j k c' H. ins H; [|eauto].
    injection Heqt as <- <-. split; [exact (Hb i key c (or_introl Hi)) | exact (Hrun i key c Hi)].
Qed.

Lemma reachable_Inv s : reachable s -> Inv s.
Proof.
  induction 1 as [|s s' Hr IH Hs]; [apply Inv_init|].
  destruct Hs.
  - apply Inv_spawn, IH.
  - eapply Inv_attach; eauto.
  - eapply Inv_create; eauto.
  - eapply Inv_fn_return; eauto.
  - eapply Inv_delete; eauto.
  - eapply Inv_wait; eauto.
  - eapply Inv_panic; eauto.
Qed.

(** C1: in every interleaving of callers of [Do]: each call record has
    had [fn] invoked exactly once ([count] 1 in the invocation log) and by
    exactly one caller (the only caller whose [owner] is the record); every
    caller that returns from a record returns the pair [fn] stored in it,
    so all of them return the same pair; the caller that invoked [fn]
    has removed the record from [g.m] when it returns.  A caller entering
    [Do(key, fn)] while [g.m] holds a record for [key] attaches to it
    without invoking [fn]; one entering when [g.m] has no record for [key]
    creates one and invokes [fn]. *)
Theorem singleflight_do :
  (forall s : State R, reachable s ->
     (forall j t c, threads s !! j = Some t -> refs t = Some c ->
        count_occ Nat.eq_dec (map snd (log s)) c = 1%nat) /\
     (forall i j t u c, threads s !! i = Some t -> threads s !! j = Some u ->
        owner t = Some c -> owner u = Some c -> i = j) /\
     (forall j key c r b, threads s !! j = Some (Returned key c r b) ->
        calls s !! c = Some (Some r)) /\
     (forall i j key key' c r r' b b', threads s !! i = Some (Returned key c r b) ->
        threads s !! j = Some (Returned key' c r' b') -> r = r') /\
     (forall j key c r, threads s !! j = Some (Returned key c r true) -> m s !! key <> Some c)) /\
  (forall (s s' : State R) i key, reachable s -> step s s' ->
     threads s !! i = Some (Enter key) -> threads s' !! i <> Some (Enter key) ->
     (m s !! key = None ->
        exists c, threads s' !! i = Some (Running key c) /\ log s' = log s ++ [(key, c)]) /\
     (forall c, m s !! key = Some c ->
        threads s' !! i = Some (Waiting key c) /\ log s' = log s)).
Proof.
  split.
  - intros s Hs. destruct (reachable_Inv s Hs) as [Hm Hr Ho Hb Hrun Hret Hrem Hnd Hlog Hpan].
    split; [|split; [exact Ho|split; [exact Hret|split; [|exact Hrem]]]].
    + intros j t c H Hc. destruct (Hr _ _ _ H Hc) as [_ Hin].
      apply (proj1 (NoDup_count_occ' Nat.eq_dec _) Hnd _ Hin).
    + intros i j key key' c r r' b b' Hi Hj.
      pose proof (Hret _ _ _ _ _ Hi) as E1. pose proof (Hret _ _ _ _ _ Hj) as E2. congruence.
  - intros s s' i key _ Hs Hi Hmoved.
    assert (Hlt : (i < length (threads s))%nat) by (eapply lookup_lt_Some; exact Hi).
    destruct Hs as [s key0|s j key0 c0 Hj Hk|s j key0 Hj Hk|s j key0 c0 r0 Hj
                   |s j key0 c0 r0 Hj Hc|s j key0 c0 r0 Hj Hc|s j key0 c0 Hj];
      cbn [m calls next threads log set_thread] in *; unfold set_thread in *;
      cbn [m calls next threads log] in *.
    + exfalso. apply Hmoved. rewrite lookup_app_l by exact Hlt. exact Hi.
    + destruct (decide (j = i)) as [<-|Hji].
      * rewrite Hi in Hj. injection Hj as <-. split; [congruence|].
        intros c Hc. rewrite Hc in Hk. injection Hk as <-.
        split; [apply list_lookup_insert_eq, Hlt | reflexivity].
      * exfalso. apply Hmoved. rewrite list_lookup_insert_ne by exact Hji. exact Hi.
    + destruct (decide (j = i)) as [<-|Hji].
      * rewrite Hi in Hj. injection Hj as <-. split; [|congruence].
        intros _. exists (next s). split; [apply list_lookup_insert_eq, Hlt | reflexivity].
      * exfalso. apply Hmoved. rewrite list_lookup_insert_ne by exact Hji. exact Hi.
    + destruct (decide (j = i)) as [<-|Hji]; [congruence|].
      exfalso. apply Hmoved. rewrite list_lookup_insert_ne by exact Hji. exact Hi.
    + destruct (decide (j = i)) as [<-|Hji]; [congruence|].
      exfalso. apply Hmoved. rewrite list_lookup_insert_ne by exact Hji. exact Hi.
    + destruct (decide (j = i)) as [<-|Hji]; [congruence|].
      exfalso. apply Hmoved. rewrite list_lookup_insert_ne by exact Hji. exact Hi.
    + destruct (decide (j = i)) as [<-|Hji]; [congruence|].
      exfalso. apply Hmoved. rewrite list_lookup_insert_ne by exact Hji. exact Hi.
Qed.

End Proofs.

(** Two callers of [Do("K", fn)]: the first creates the record and runs
    [fn], the second attaches and waits; both return ["v"]. *)
Lemma singleflight_do_witness :
  exists s : State string, reachable s /\
    threads s !! 0%nat = Some (Returned "K" 0%nat "v" true) /\
    threads s !! 1%nat = Some (Returned "K" 0%nat "v" false) /\
    count_occ Nat.eq_dec (map snd (log s)) 0%nat = 1%nat.
Proof.
  pose proof (reach_step _ _ reach_init (step_spawn (init (R:=string)) "K")) as H1.
  match type of H1 with reachable ?x =>
    pose proof (reach_step _ _ H1 (step_spawn x "K")) as H2 end.
  match type of H2 with reachable ?x =>
    pose proof (reach_step _ _ H2 (step_create x 0%nat "K" eq_refl eq_refl)) as H3 end.
  match type of H3 with reachable ?x =>
    pose proof (reach_step _ _ H3 (step_attach x 1%nat "K" 0%nat eq_refl eq_refl)) as H4 end.
  match type of H4 with reachable ?x =>
    pose proof (reach_step _ _ H4 (step_fn_return x 0%nat "K" 0%nat "v"%string eq_refl)) as H5 end.
  match type of H5 with reachable ?x =>
    pose proof (reach_step _ _ H5 (step_delete x 0%nat "K" 0%nat "v"%string eq_refl eq_refl)) as H6 end.
  match type of H6 with reachable ?x =>
    pose proof (reach_step _ _ H6 (step_wait x 1%nat "K" 0%nat "v"%string eq_refl eq_refl)) as H7 end.
  eexists. split; [exact H7|]. split; [reflexivity|]. split; [reflexivity|].
  apply (proj1 (proj1 singleflight_do _ H7) 0%nat (Returned "K" 0%nat "v"%string true) 0%nat);
    reflexivity.
Defined.

End SingleFlightFacts.

(* ------------------------------------------------------------------ *)
(** ** Further properties of the LRU store *)

Module LruMore.
Import Lru LruFacts.

Lemma over_true c : over c = true <-> maxBytes c <> 0 /\ maxBytes c < nbytes c.
Proof.
  unfold over. rewrite andb_true_iff, negb_true_iff, Z.eqb_neq, Z.ltb_lt. tauto.
Qed.

Lemma over_false c : over c = false <-> maxBytes c = 0 \/ nbytes c <= maxBytes c.
Proof.
  unfold over. destruct (maxBytes c =? 0) eqn:H0; simpl.
  - apply Z.eqb_eq in H0. split; [intros _; left; exact H0 | reflexivity].
  - apply Z.eqb_neq in H0. rewrite Z.ltb_ge. split; [intros H; right; exact H|].
    intros [H|H]; [contradiction | exact H].
Qed.

Lemma RemoveOldest_ll c : ll (RemoveOldest c) = removelast (ll c).
Proof.
  unfold RemoveOldest. destruct (back (ll c)) as [e|] eqn:Hb; [reflexivity|].
  destruct (ll c) as [|e l] eqn:Hl; [reflexivity|].
  destruct (back_some (e :: l)) as [x Hx]; [discriminate | congruence].
Qed.

Lemma RemoveOldest_maxBytes c : maxBytes (RemoveOldest c) = maxBytes c.
Proof. unfold RemoveOldest. destruct (back (ll c)); reflexivity. Qed.

(** The store [Add] hands to the eviction loop: the entry at the front,
    any older element for the key unlinked. *)
Definition staged (k : string) (v : ByteView) (c : Cache) : Cache :=
  match find_entry k (ll c) with
  | Some kv => mkCache (maxBytes c) (nbytes c + Len v - Len (value kv))
                       (mkEntry k v :: remove_key k (ll c))
  | None => mkCache (maxBytes c) (nbytes c + Z.of_nat (String.length k) + Len v)
                    (mkEntry k v :: ll c)
  end.

Lemma Add_staged k v c : Add k v c = evict (length (ll (staged k v c))) (staged k v c).
Proof. reflexivity. Qed.

Lemma staged_fields k v c :
  maxBytes (staged k v c) = maxBytes c /\
  ll (staged k v c) = mkEntry k v :: remove_key k (ll c) /\
  (counted c -> counted (staged k v c)).
Proof.
  unfold staged, counted. destruct (find_entry k (ll c)) as [kv|] eqn:Hf; simpl.
  - split; [reflexivity|]. split; [reflexivity|]. intros Hc.
    rewrite (total_remove_key _ _ _ Hf). unfold entry_size. simpl.
    rewrite (find_entry_key _ _ _ Hf). lia.
  - split; [reflexivity|]. split; [rewrite (remove_key_absent _ _ Hf); reflexivity|].
    intros Hc. unfold entry_size. simpl. lia.
Qed.

(** With a capacity [>= 0], the eviction loop stops once the list is
    empty at the latest. *)
Lemma evict_returns n c :
  counted c -> 0 <= maxBytes c -> (length (ll c) <= n)%nat -> exists c', evict n c = Some c'.
Proof.
  revert c. induction n as [|n IH]; intros c Hc Hm Hn; cbn [evict].
  - destruct (ll c) eqn:Hl; [|simpl in Hn; lia].
    destruct (over c) eqn:Ho; [|eauto]. apply over_true in Ho.
    unfold counted in Hc. rewrite Hl in Hc. simpl in Hc. lia.
  - destruct (over c) eqn:Ho; [|eauto]. apply IH.
    + apply RemoveOldest_counted, Hc.
    + rewrite RemoveOldest_maxBytes. exact Hm.
    + rewrite RemoveOldest_ll, removelast_firstn_len, length_firstn. lia.
Qed.

(** With a negative capacity the guard holds on every counted store, the
    empty one included. *)
Lemma evict_negative n c : counted c -> maxBytes c < 0 -> evict n c = None.
Proof.
  revert c. induction n as [|n IH]; intros c Hc Hm; cbn [evict];
    (replace (over c) with true;
     [| symmetry; apply over_true; unfold counted in Hc;
        pose proof (total_nonneg (ll c)); lia]); [reflexivity|].
  apply IH; [apply RemoveOldest_counted, Hc | rewrite RemoveOldest_maxBytes; exact Hm].
Qed.

Lemma Add_returns k v c :
  counted c -> 0 <= maxBytes c -> exists c', Add k v c = Some c'.
Proof.
  intros Hc Hm. rewrite Add_staged. destruct (staged_fields k v c) as (H1 & _ & H3).
  apply evict_returns; [apply H3, Hc | rewrite H1; exact Hm | lia].
Qed.

Lemma Add_negative k v c : counted c -> maxBytes c < 0 -> Add k v c = None.
Proof.
  intros Hc Hm. rewrite Add_staged. destruct (staged_fields k v c) as (H1 & _ & H3).
  apply evict_negative; [apply H3, Hc | rewrite H1; exact Hm].
Qed.

(** The loop only ever cuts the list from the back. *)
Lemma evict_prefix n c c' :
  evict n c = Some c' -> maxBytes c' = maxBytes c /\ exists j, ll c' = firstn j (ll c).
Proof.
  revert c. induction n as [|n IH]; intros c; cbn [evict].
  - destruct (over c); [discriminate|]. intros [= <-]. split; [reflexivity|].
    exists (length (ll c)). symmetry. apply firstn_all.
  - destruct (over c); [|intros [= <-]; split; [reflexivity|]; exists (length (ll c));
                        symmetry; apply firstn_all].
    intros H. destruct (IH _ H) as [Hm (j & Hj)]. rewrite RemoveOldest_maxBytes in Hm.
    split; [exact Hm|]. rewrite Hj, RemoveOldest_ll, removelast_firstn_len, firstn_firstn.
    eauto.
Qed.

(** The front entry survives the loop when it fits in the capacity on its
    own (or the capacity is 0). *)
Lemma evict_keeps_front n : forall c e rest c',
  counted c -> ll c = e :: rest -> (maxBytes c = 0 \/ entry_size e <= maxBytes c) ->
  evict n c = Some c' -> exists rest', ll c' = e :: rest'.
Proof.
  induction n as [|n IH]; intros c e rest c' Hc Hl Hfit; cbn [evict].
  - destruct (over c); [discriminate|]. intros [= <-]. eauto.
  - destruct (over c) eqn:Ho; [|intros [= <-]; eauto].
    apply over_true in Ho. unfold counted in Hc. rewrite Hl in Hc. simpl in Hc.
    destruct rest as [|e2 rest]; [simpl in Hc; lia|].
    apply (IH (RemoveOldest c) e (removelast (e2 :: rest))).
    + apply RemoveOldest_counted. unfold counted. rewrite Hl. simpl. exact Hc.
    + rewrite RemoveOldest_ll, Hl. reflexivity.
    + rewrite RemoveOldest_maxBytes. exact Hfit.
Qed.

Lemma key_remove_key_in k k' l : In k' (map key (remove_key k l)) -> In k' (map key l).
Proof.
  induction l as [|e l IH]; simpl; [tauto|].
  destruct (String.eqb (key e) k); simpl; [tauto|]. intros [H|H]; [left; exact H|right; apply IH, H].
Qed.

Lemma key_remove_key_nodup k l :
  List.NoDup (map key l) -> List.NoDup (map key (remove_key k l)) /\ ~ In k (map key (remove_key k l)).
Proof.
  induction l as [|e l IH]; simpl; intros Hnd; [split; [constructor | tauto]|].
  apply NoDup_cons_iff in Hnd as [Hn Hnd].
  destruct (String.eqb (key e) k) eqn:Hk.
  - apply String.eqb_eq in Hk. subst k. split; assumption.
  - apply String.eqb_neq in Hk. destruct (IH Hnd) as [H1 H2]. simpl. split.
    + constructor; [|exact H1]. intros Hin. apply Hn. eapply key_remove_key_in, Hin.
    + intros [H|H]; [exact (Hk H) | exact (H2 H)].
Qed.

Lemma in_firstn {A} (l : list A) j x : In x (firstn j l) -> In x l.
Proof.
  revert j. induction l as [|y l IH]; intros j; destruct j; simpl; try tauto.
  intros [H|H]; [left; exact H | right; eapply IH, H].
Qed.

Lemma nodup_firstn {A} (l : list A) j : List.NoDup l -> List.NoDup (firstn j l).
Proof.
  revert j. induction l as [|x l IH]; intros j Hnd; destruct j; simpl; [constructor..|].
  apply NoDup_cons_iff in Hnd as [Hn Hnd]. constructor; [|apply IH, Hnd].
  intros Hin. apply Hn. eapply in_firstn, Hin.
Qed.

Lemma Add_nodup k v c c' :
  List.NoDup (map key (ll c)) -> Add k v c = Some c' -> List.NoDup (map key (ll c')).
Proof.
  intros Hnd H. rewrite Add_staged in H. apply evict_prefix in H as [_ (j & Hj)].
  destruct (staged_fields k v c) as (_ & Hl & _). rewrite Hj, Hl, <- firstn_map.
  apply nodup_firstn. simpl. destruct (key_remove_key_nodup k _ Hnd) as [H1 H2].
  constructor; assumption.
Qed.

Lemma Get_hit k c v :
  fst (Get k c) = Some v ->
  snd (Get k c) = mkCache (maxBytes c) (nbytes c) (mkEntry k v :: remove_key k (ll c)) /\
  find_entry k (ll c) = Some (mkEntry k v).
Proof.
  unfold Get. destruct (find_entry k (ll c)) as [kv|] eqn:Hf; [|discriminate].
  simpl. intros [= <-]. pose proof (find_entry_key _ _ _ Hf) as Hk.
  destruct kv as [k' v']. simpl in *. subst k'. split; reflexivity.
Qed.

Lemma Get_nodup k c : List.NoDup (map key (ll c)) -> List.NoDup (map key (ll (snd (Get k c)))).
Proof.
  intros Hnd. destruct (fst (Get k c)) as [v|] eqn:Hg.
  - destruct (Get_hit _ _ _ Hg) as [-> _]. simpl.
    destruct (key_remove_key_nodup k _ Hnd). constructor; assumption.
  - unfold Get in *. destruct (find_entry k (ll c)); [discriminate | exact Hnd].
Qed.

Lemma RemoveOldest_nodup c : List.NoDup (map key (ll c)) -> List.NoDup (map key (ll (RemoveOldest c))).
Proof.
  intros Hnd. rewrite RemoveOldest_ll, removelast_firstn_len, <- firstn_map.
  apply nodup_firstn, Hnd.
Qed.

Lemma reachable_nodup c : reachable c -> List.NoDup (map key (ll c)).
Proof.
  induction 1.
  - constructor.
  - eapply Add_nodup; eassumption.
  - apply Get_nodup. assumption.
  - apply RemoveOldest_nodup. assumption.
Qed.

Lemma find_entry_front k v rest : find_entry k (mkEntry k v :: rest) = Some (mkEntry k v).
Proof. simpl. rewrite String.eqb_refl. reflexivity. Qed.

Lemma Add_fits k v c :
  counted c -> (maxBytes c = 0 \/ entry_size (mkEntry k v) <= maxBytes c) ->
  exists c' rest, Add k v c = Some c' /\ ll c' = mkEntry k v :: rest.
Proof.
  intros Hc Hfit. destruct (staged_fields k v c) as (Hm & Hl & Hs).
  assert (H0 : 0 <= maxBytes c) by (pose proof (entry_size_nonneg (mkEntry k v)); lia).
  destruct (Add_returns k v c Hc H0) as [c' Hc']. exists c'.
  pose proof Hc' as Hev. rewrite Add_staged in Hev.
  destruct (evict_keeps_front _ _ _ _ _ (Hs Hc) Hl ltac:(rewrite Hm; exact Hfit) Hev) as [rest Hr].
  eauto.
Qed.

End LruMore.

Module LruExtra.
Import Lru LruFacts LruMore.

(** In every store reached from [New] through [Add], [Get] and
    [RemoveOldest], no key is held by two elements of the recency list
    [c.ll] (the Go code keeps at most one list element per key, the one
    its [c.cache] map points to). *)
Theorem lru_keys_unique c : reachable c -> List.NoDup (map key (ll c)).
Proof. exact (reachable_nodup c). Qed.

Lemma lru_keys_unique_witness :
  reachable (snd (Get "a" (mkCache 10 5 [mkEntry "b" (mkByteView "c"); mkEntry "a" (mkByteView "bc")]))) /\
  List.NoDup (map key (ll (snd (Get "a" (mkCache 10 5 [mkEntry "b" (mkByteView "c");
                                                      mkEntry "a" (mkByteView "bc")]))))).
Proof.
  assert (H : reachable (snd (Get "a" (mkCache 10 5 [mkEntry "b" (mkByteView "c");
                                                    mkEntry "a" (mkByteView "bc")])))).
  { apply reach_get. apply (reach_add "b" (mkByteView "c") (mkCache 10 3 [mkEntry "a" (mkByteView "bc")]));
      [|reflexivity].
    apply (reach_add "a" (mkByteView "bc") (New 10)); [constructor | reflexivity]. }
  split; [exact H | apply lru_keys_unique, H].
Defined.

(** [Add] returns on every reached store whose capacity is [>= 0]; with a
    negative capacity ([New] accepts any [int64]) the eviction loop never
    ends, even once the list is empty. *)
Theorem lru_add_returns k v c :
  reachable c ->
  (0 <= maxBytes c -> exists c', Add k v c = Some c') /\
  (maxBytes c < 0 -> Add k v c = None).
Proof.
  intros Hr. apply reachable_counted in Hr. split.
  - apply Add_returns, Hr.
  - apply Add_negative, Hr.
Qed.

Lemma lru_add_returns_witness :
  reachable (New (-1)) /\ Add "a" (mkByteView "b") (New (-1)) = None.
Proof.
  split; [constructor|]. apply (proj2 (lru_add_returns "a" (mkByteView "b") (New (-1)) (reach_new _))).
  vm_compute. reflexivity.
Defined.

(** Round trip: on a reached store, once [Add(key, value)] has returned, a
    [Get(key)] returns [value], provided the capacity is 0 or the entry
    [len(key) + value.Len()] fits in it on its own (entries are evicted
    from the back, and the new entry is at the front). *)
Theorem lru_add_get k v c :
  reachable c ->
  (maxBytes c = 0 \/ Z.of_nat (String.length k) + Len v <= maxBytes c) ->
  exists c', Add k v c = Some c' /\ fst (Get k c') = Some v.
Proof.
  intros Hr Hfit. apply reachable_counted in Hr.
  destruct (Add_fits k v c Hr Hfit) as (c' & rest & Hadd & Hl).
  exists c'. split; [exact Hadd|]. unfold Get. rewrite Hl, find_entry_front. reflexivity.
Qed.

Lemma lru_add_get_witness :
  exists c', Add "a" (mkByteView "bc") (New 3) = Some c' /\ fst (Get "a" c') = Some (mkByteView "bc").
Proof. apply lru_add_get; [constructor | right; vm_compute; discriminate]. Defined.

(** [Add] evicts in recency order: the list it leaves is a prefix of the
    list with the new entry at the front and the key's older element
    unlinked, i.e. only the least recently used entries are dropped; the
    capacity is unchanged. *)
Theorem lru_evicts_oldest k v c c' :
  Add k v c = Some c' ->
  maxBytes c' = maxBytes c /\
  exists j, ll c' = firstn j (mkEntry k v :: remove_key k (ll c)).
Proof.
  intros H. rewrite Add_staged in H. destruct (staged_fields k v c) as (Hm & Hl & _).
  apply evict_prefix in H as [Hm' Hj]. rewrite Hl in Hj. split; [congruence | exact Hj].
Qed.

Lemma lru_evicts_oldest_witness :
  Add "c" (mkByteView "d") (mkCache 4 4 [mkEntry "a" (mkByteView "b"); mkEntry "e" (mkByteView "f")]) =
    Some (mkCache 4 4 [mkEntry "c" (mkByteView "d"); mkEntry "a" (mkByteView "b")]) /\
  maxBytes (mkCache 4 4 [mkEntry "c" (mkByteView "d"); mkEntry "a" (mkByteView "b")]) =
    maxBytes (mkCache 4 4 [mkEntry "a" (mkByteView "b"); mkEntry "e" (mkByteView "f")]) /\
  exists j, ll (mkCache 4 4 [mkEntry "c" (mkByteView "d"); mkEntry "a" (mkByteView "b")]) =
    firstn j (mkEntry "c" (mkByteView "d") ::
              remove_key "c" [mkEntry "a" (mkByteView "b"); mkEntry "e" (mkByteView "f")]).
Proof.
  split; [reflexivity|].
  apply (lru_evicts_oldest "c" (mkByteView "d")
           (mkCache 4 4 [mkEntry "a" (mkByteView "b"); mkEntry "e" (mkByteView "f")])).
  reflexivity.
Defined.

(** A [Get] hit moves the entry to the front without changing the counter
    or the set of entries, so the next [RemoveOldest] spares it whenever
    the store holds another entry. *)
Theorem lru_get_refreshes k c v :
  fst (Get k c) = Some v ->
  ll (snd (Get k c)) = mkEntry k v :: remove_key k (ll c) /\
  nbytes (snd (Get k c)) = nbytes c /\
  Permutation (ll (snd (Get k c))) (ll c) /\
  ((2 <= length (ll c))%nat ->
   find_entry k (ll (RemoveOldest (snd (Get k c)))) = Some (mkEntry k v)).
Proof.
  intros Hg. destruct (Get_hit _ _ _ Hg) as [Hs Hf]. rewrite Hs. simpl.
  pose proof (find_entry_perm _ _ _ Hf) as Hp.
  split; [reflexivity|]. split; [reflexivity|]. split; [exact Hp|].
  intros Hlen. rewrite RemoveOldest_ll. simpl ll.
  apply Permutation_length in Hp. simpl in Hp.
  destruct (remove_key k (ll c)) as [|e2 rest] eqn:Hr; [simpl in Hp; lia|].
  change (removelast (mkEntry k v :: e2 :: rest)) with (mkEntry k v :: removelast (e2 :: rest)).
  apply find_entry_front.
Qed.

Lemma lru_get_refreshes_witness :
  find_entry "a" (ll (RemoveOldest (snd (Get "a" (mkCache 10 5 [mkEntry "b" (mkByteView "c");
                                                                 mkEntry "a" (mkByteView "bc")])))))
    = Some (mkEntry "a" (mkByteView "bc")).
Proof.
  apply (lru_get_refreshes "a" (mkCache 10 5 [mkEntry "b" (mkByteView "c"); mkEntry "a" (mkByteView "bc")])
                           (mkByteView "bc")); [reflexivity | simpl; lia].
Defined.

End LruExtra.

(* ------------------------------------------------------------------ *)
(** ** Further properties of the cache shell and of groups *)

Module GroupMore.
Import Group GroupFacts.

(** A shell is well formed when its store, once created, is a store the
    program reaches and has the shell's capacity. *)
Definition shell_ok (c : cache) : Prop :=
  forall l, lru c = Some l -> Lru.reachable l /\ Lru.maxBytes l = cacheBytes c.

Definition shell_store (c : cache) : Lru.Cache :=
  match lru c with Some l => l | None => Lru.New (cacheBytes c) end.

Lemma shell_store_ok c :
  shell_ok c -> Lru.reachable (shell_store c) /\ Lru.maxBytes (shell_store c) = cacheBytes c.
Proof.
  unfold shell_store. destruct (lru c) as [l|] eqn:Hl; intros H.
  - apply H, Hl.
  - split; [constructor | reflexivity].
Qed.

Lemma cache_add_store key v c :
  cache_add key v c =
  match Lru.Add key v (shell_store c) with
  | Some l' => Some (mkShell (Some l') (cacheBytes c))
  | None => None
  end.
Proof. reflexivity. Qed.

Lemma Lru_Add_maxBytes k v l l' : Lru.Add k v l = Some l' -> Lru.maxBytes l' = Lru.maxBytes l.
Proof.
  rewrite LruMore.Add_staged. intros H. apply LruMore.evict_prefix in H as [H _].
  rewrite H. apply LruMore.staged_fields.
Qed.

Lemma cache_add_fits key v c :
  shell_ok c ->
  (cacheBytes c = 0 \/ Z.of_nat (String.length key) + Len v <= cacheBytes c) ->
  exists c', cache_add key v c = Some c' /\ shell_ok c' /\ fst (cache_get key c') = Some v.
Proof.
  intros Hok Hfit. destruct (shell_store_ok c Hok) as [Hr Hm].
  pose proof (LruFacts.reachable_counted _ Hr) as Hc.
  destruct (LruMore.Add_fits key v (shell_store c) Hc ltac:(rewrite Hm; exact Hfit))
    as (l' & rest & Hadd & Hl).
  exists (mkShell (Some l') (cacheBytes c)). rewrite cache_add_store, Hadd.
  split; [reflexivity|]. split.
  - intros l [= <-]. split; [eapply Lru.reach_add; eassumption|].
    rewrite (Lru_Add_maxBytes _ _ _ _ Hadd). exact Hm.
  - unfold cache_get. simpl. unfold Lru.Get. rewrite Hl, LruMore.find_entry_front. reflexivity.
Qed.

(** A reached store of negative capacity never holds an entry. *)
Lemma negative_store_empty l : Lru.reachable l -> Lru.maxBytes l < 0 -> Lru.ll l = [].
Proof.
  induction 1 as [m|k v c c' Hr IH Hadd|k c Hr IH|c Hr IH].
  - reflexivity.
  - intros Hm. rewrite (Lru_Add_maxBytes _ _ _ _ Hadd) in Hm.
    rewrite (LruMore.Add_negative k v c (LruFacts.reachable_counted _ Hr) Hm) in Hadd. discriminate.
  - intros Hm. unfold Lru.Get in *. destruct (Lru.find_entry k (Lru.ll c)) eqn:Hf.
    + simpl in Hm. rewrite (IH Hm) in Hf. discriminate.
    + apply IH, Hm.
  - intros Hm. rewrite LruMore.RemoveOldest_maxBytes in Hm. rewrite LruMore.RemoveOldest_ll, (IH Hm).
    reflexivity.
Qed.

Lemma cache_negative key v c : shell_ok c -> cacheBytes c < 0 ->
  fst (cache_get key c) = None /\ cache_add key v c = None.
Proof.
  intros Hok Hneg. split.
  - unfold cache_get. destruct (lru c) as [l|] eqn:Hl; [|reflexivity].
    destruct (Hok l Hl) as [Hr Hm]. unfold Lru.Get.
    rewrite (negative_store_empty l Hr ltac:(lia)). reflexivity.
  - destruct (shell_store_ok c Hok) as [Hr Hm]. rewrite cache_add_store.
    rewrite (LruMore.Add_negative key v _ (LruFacts.reachable_counted _ Hr) ltac:(lia)).
    reflexivity.
Qed.

Lemma Get_hit_cache g key c v c' :
  key <> EmptyString -> cache_get key c = (Some v, c') -> Get g key c = Some ((v, None), c').
Proof.
  intros Hk Hc. unfold Get. apply String.eqb_neq in Hk. rewrite Hk, Hc. reflexivity.
Qed.

End GroupMore.

Module GroupExtra.
Import Group GroupFacts GroupMore.

(** [cache.add] then [cache.get]: on a shell that is still empty or holds a
    store of its capacity, a value added under a key is read back,
    provided the capacity is 0 or the entry [len(key) + value.Len()] fits
    in it on its own; the store is created on the first [add]. *)
Theorem cache_add_get key v c :
  shell_ok c ->
  (cacheBytes c = 0 \/ Z.of_nat (String.length key) + Len v <= cacheBytes c) ->
  exists c', cache_add key v c = Some c' /\ fst (cache_get key c') = Some v.
Proof.
  intros Hok Hfit. destruct (cache_add_fits key v c Hok Hfit) as (c' & H1 & _ & H3). eauto.
Qed.

Lemma cache_add_get_witness :
  exists c', cache_add "Tom" (mkByteView "630") (mkShell None 2048) = Some c' /\
             fst (cache_get "Tom" c') = Some (mkByteView "630").
Proof.
  apply cache_add_get; [intros l Hl; discriminate Hl | right; vm_compute; discriminate].
Defined.

(** A value the group loads through its [Getter] (no peer serves the key)
    is cached: the next [Get] of the key, by any group sharing the cache,
    returns it from the cache without calling a loader or a peer, provided
    the cache capacity is 0 or the entry fits in it. *)
Theorem group_get_caches_local g key c bs :
  shell_ok c -> key <> EmptyString -> fst (cache_get key c) = None ->
  (peers g = None \/ exists pk, peers g = Some pk /\
     (pk key = None \/ exists peer e, pk key = Some peer /\ peer (name g) key = Err e)) ->
  getter g key = Ok bs ->
  (cacheBytes c = 0 \/ Z.of_nat (String.length key) + Z.of_nat (String.length bs) <= cacheBytes c) ->
  exists c', Get g key c = Some ((mkByteView bs, None), c') /\
    forall g', exists c'', Get g' key c' = Some ((mkByteView bs, None), c'').
Proof.
  intros Hok Hk Hmiss Hloc Hbs Hfit.
  destruct (cache_add_fits key (mkByteView bs) c Hok Hfit) as (c' & Hadd & _ & Hget).
  exists c'. split.
  - rewrite (Get_miss _ _ _ Hk Hmiss). unfold load. rewrite load_local by exact Hloc.
    unfold getLocally. rewrite Hbs. unfold cloneBytes. rewrite Hadd. reflexivity.
  - intros g'. destruct (cache_get key c') as [r c''] eqn:Hc. simpl in Hget. subst r.
    exists c''. apply Get_hit_cache; assumption.
Qed.

Lemma group_get_caches_local_witness :
  exists c', Get (mkGroup "scores" (fun _ => Ok "630"%string) None) "Tom" (mkShell None 2048) =
               Some ((mkByteView "630", None), c') /\
    forall g', exists c'', Get g' "Tom" c' = Some ((mkByteView "630", None), c'').
Proof.
  apply group_get_caches_local.
  - intros l Hl; discriminate Hl.
  - discriminate.
  - reflexivity.
  - left; reflexivity.
  - reflexivity.
  - right; vm_compute; discriminate.
Defined.

(** A loader error is not cached: when no peer serves the key and the
    [Getter] fails, [Get] returns the zero [ByteView] with the error and
    leaves the cache as it was, so the next [Get] calls the loader again. *)
Theorem group_error_not_cached g key c e :
  key <> EmptyString -> fst (cache_get key c) = None ->
  (peers g = None \/ exists pk, peers g = Some pk /\
     (pk key = None \/ exists peer pe, pk key = Some peer /\ peer (name g) key = Err pe)) ->
  getter g key = Err e ->
  Get g key c = Some ((mkByteView EmptyString, Some e), c).
Proof.
  intros Hk Hmiss Hloc He. rewrite (Get_miss _ _ _ Hk Hmiss). unfold load.
  rewrite load_local by exact Hloc. unfold getLocally. rewrite He. reflexivity.
Qed.

Lemma group_error_not_cached_witness :
  Get (mkGroup "scores" (fun k => Err ("Tom not exist")%string) None) "Tom" (mkShell None 2048) =
    Some ((mkByteView EmptyString, Some "Tom not exist"%string), mkShell None 2048).
Proof. apply group_error_not_cached; [discriminate | reflexivity | left; reflexivity | reflexivity]. Defined.

(** A group whose cache capacity is negative never returns from [Get] for
    a key it has to load itself: the store stays empty, so every such key
    misses, and adding the loaded value spins in the eviction loop. *)
Theorem group_negative_capacity_hangs g key c bs :
  shell_ok c -> cacheBytes c < 0 -> key <> EmptyString ->
  (peers g = None \/ exists pk, peers g = Some pk /\
     (pk key = None \/ exists peer e, pk key = Some peer /\ peer (name g) key = Err e)) ->
  getter g key = Ok bs ->
  Get g key c = None.
Proof.
  intros Hok Hneg Hk Hloc Hbs. destruct (cache_negative key (mkByteView bs) c Hok Hneg) as [Hmiss Hadd].
  rewrite (Get_miss _ _ _ Hk Hmiss). unfold load. rewrite load_local by exact Hloc.
  unfold getLocally. rewrite Hbs. unfold cloneBytes. rewrite Hadd. reflexivity.
Qed.

Lemma group_negative_capacity_hangs_witness :
  Get (mkGroup "scores" (fun _ => Ok "630"%string) None) "Tom" (mkShell None (-1)) = None.
Proof.
  apply group_negative_capacity_hangs with (bs := "630"%string);
    [intros l Hl; discriminate Hl | reflexivity | discriminate | left; reflexivity | reflexivity].
Defined.

End GroupExtra.

(* ------------------------------------------------------------------ *)
(** ** Further properties of the hash ring and the pool *)

Module RingExtra.
Import ConsistentHash RingFacts.

Lemma sorted_perm_eq (l1 l2 : list Z) :
  Sorted Z.le l1 -> Sorted Z.le l2 -> Permutation l1 l2 -> l1 = l2.
Proof.
  intros H1 H2 Hp. apply (Sorted_unique Z.le); [exact H1 | exact H2 | exact Hp].
Qed.

(** [Add] composes: adding [ps] and then [qs] builds the same ring
    (points, owners, hash and multiplier) as adding [ps ++ qs] at once;
    the intermediate [sort.Ints] does not change the final order. *)
Theorem ring_add_app (m : Map) (ps qs : list string) :
  Add (Add m ps) qs = Add m (ps ++ qs).
Proof.
  unfold Add at 1. rewrite add_peers_spec. unfold Add. rewrite add_peers_spec. simpl.
  rewrite fold_left_app, add_peers_spec. simpl. rewrite add_peers_spec. simpl.
  f_equal.
  apply sorted_perm_eq; [apply sort_ints_sorted | apply sort_ints_sorted|].
  rewrite !sort_ints_perm. rewrite <- app_assoc. reflexivity.
Qed.

End RingExtra.

Module PoolExtra.
Import ConsistentHash Pool RingFacts PoolFacts.

(** A pool whose peer list names only the pool itself (or is empty)
    never routes a key to a remote peer: after [Set(peers...)], every
    [PickPeer(key)] returns not-found. *)
Theorem pick_self_only (p0 : HTTPPool) (ps : list string) :
  (forall q, In q ps -> q = self p0) ->
  forall key, PickPeer (Set_ p0 ps) key = NoPeer.
Proof.
  intros Hself key.
  assert (Hb : built ([] ++ ps) (Add (New defaultReplicas None) ps)) by (repeat constructor).
  unfold PickPeer. simpl.
  destruct (keys (Add (New defaultReplicas None) ps)) as [|x l] eqn:Hk.
  - rewrite (get_no_points _ key Hk). reflexivity.
  - assert (Hin : In (Get (Add (New defaultReplicas None) ps) key) ps).
    { apply (get_in_added _ _ key Hb). rewrite Hk. discriminate. }
    rewrite (Hself _ Hin), String.eqb_refl, andb_false_r. reflexivity.
Qed.

Lemma pick_self_only_witness :
  PickPeer (Set_ (NewHTTPPool "http://localhost:8001")
                 ["http://localhost:8001"; "http://localhost:8001"]) "Tom" = NoPeer.
Proof.
  apply pick_self_only. intros q [<-|[<-|[]]]; reflexivity.
Defined.

End PoolExtra.

Module ServeMore.
Import Pool Serve.

Lemma prefix_app (bp s : string) : String.prefix bp (bp ++ s) = true.
Proof.
  induction bp as [|ch bp IH]; simpl; [destruct s; reflexivity|].
  destruct (ascii_dec ch ch) as [_|Hn]; [exact IH | contradiction].
Qed.

Lemma substring_app (bp s : string) k : substring (String.length bp) k (bp ++ s) = substring 0 k s.
Proof. induction bp as [|ch bp IH]; simpl; [reflexivity | exact IH]. Qed.

Lemma substring_all (s : string) : substring 0 (String.length s) s = s.
Proof. induction s as [|ch s IH]; simpl; [reflexivity | rewrite IH; reflexivity]. Qed.

Lemma length_app (bp s : string) : String.length (bp ++ s) = (String.length bp + String.length s)%nat.
Proof. induction bp as [|ch bp IH]; simpl; [reflexivity | rewrite IH; reflexivity]. Qed.

Lemma drop_prefix_app (bp s : string) : drop_prefix (String.length bp) (bp ++ s) = s.
Proof.
  unfold drop_prefix. rewrite length_app, substring_app.
  replace (String.length bp + String.length s - String.length bp)%nat with (String.length s) by lia.
  apply substring_all.
Qed.

(** [s] contains no ["/"]. *)
Definition no_slash (s : string) : Prop := forall i, String.get i s <> Some "/"%char.

Lemma no_slash_tail ch s : no_slash (String ch s) -> ch <> "/"%char /\ no_slash s.
Proof.
  intros H. split.
  - intros ->. apply (H 0%nat). reflexivity.
  - intros i. apply (H (S i)).
Qed.

Lemma split_slash_app gn key : no_slash gn -> split_slash (gn ++ "/" ++ key) = Some (gn, key).
Proof.
  induction gn as [|ch gn IH]; intros H; [reflexivity|].
  apply no_slash_tail in H as [Hch H]. simpl.
  replace (Ascii.eqb ch "/") with false by (symmetry; apply Ascii.eqb_neq, Hch).
  rewrite (IH H). reflexivity.
Qed.

Lemma split_slash_none s : no_slash s -> split_slash s = None.
Proof.
  induction s as [|ch s IH]; intros H; [reflexivity|].
  apply no_slash_tail in H as [Hch H]. simpl.
  replace (Ascii.eqb ch "/") with false by (symmetry; apply Ascii.eqb_neq, Hch).
  rewrite (IH H). reflexivity.
Qed.

Lemma serve_split p lookup rest :
  ServeHTTP p lookup (basePath p ++ rest) =
  match split_slash rest with
  | None => Some (HttpError 400 "bad request", None)
  | Some (groupName, key) =>
      match lookup groupName with
      | None => Some (HttpError 404 ("no such group: " ++ groupName)%string, None)
      | Some (g, c) =>
          match Group.Get g key c with
          | None => None
          | Some ((_, Some e), c') => Some (HttpError 500 e, Some c')
          | Some ((view, None), c') =>
              Some (Reply "application/octet-stream" (mkResponse (cloneBytes (b view))), Some c')
          end
      end
  end.
Proof. unfold ServeHTTP. rewrite prefix_app, drop_prefix_app. reflexivity. Qed.

End ServeMore.

Module ServeExtra.
Import Pool Serve ServeMore.

(** Routing: a request for [<basePath><group>/<key>], where the group name
    contains no ["/"], reaches [GetGroup(group)]: an unknown group gets
    404 ["no such group: <group>"]; otherwise the reply is [group.Get(key)]:
    its value as the body of a [pb.Response] with type
    [application/octet-stream], or 500 with the error's message.  The key
    is the whole rest of the path, ["/"] included. *)
Theorem serve_routes p lookup gn key :
  no_slash gn ->
  let path := (basePath p ++ gn ++ "/" ++ key)%string in
  (lookup gn = None ->
     ServeHTTP p lookup path = Some (HttpError 404 ("no such group: " ++ gn)%string, None)) /\
  (forall g c v c', lookup gn = Some (g, c) -> Group.Get g key c = Some ((v, None), c') ->
     ServeHTTP p lookup path =
       Some (Reply "application/octet-stream" (mkResponse (b v)), Some c')) /\
  (forall g c v e c', lookup gn = Some (g, c) -> Group.Get g key c = Some ((v, Some e), c') ->
     ServeHTTP p lookup path = Some (HttpError 500 e, Some c')).
Proof.
  intros Hgn path. unfold path. rewrite serve_split, (split_slash_app _ _ Hgn).
  split; [|split].
  - intros ->. reflexivity.
  - intros g c v c' -> ->. reflexivity.
  - intros g c v e c' -> ->. reflexivity.
Qed.

Definition scores_lookup (n : string) : option (Group.Group * Group.cache) :=
  if String.eqb n "scores" then
    Some (Group.mkGroup "scores" (fun _ => Group.Ok "630"%string) None, Group.mkShell None 2048)
  else None.

Lemma serve_routes_witness :
  ServeHTTP (NewHTTPPool "http://localhost:8001") scores_lookup "/_geecache/scores/Tom" =
    Some (Reply "application/octet-stream" (mkResponse "630"),
          Some (Group.mkShell (Some (Lru.mkCache 2048 6 [Lru.mkEntry "Tom" (mkByteView "630")])) 2048)) /\
  ServeHTTP (NewHTTPPool "http://localhost:8001") scores_lookup "/_geecache/grades/Tom" =
    Some (HttpError 404 "no such group: grades", None).
Proof.
  split.
  - apply (proj1 (proj2 (serve_routes (NewHTTPPool "http://localhost:8001") scores_lookup
                            "scores" "Tom" ltac:(intros [|[|[|[|[|[|[]]]]]]]; discriminate)))
             (Group.mkGroup "scores" (fun _ => Group.Ok "630"%string) None) (Group.mkShell None 2048)
             (mkByteView "630")); reflexivity.
  - apply (proj1 (serve_routes (NewHTTPPool "http://localhost:8001") scores_lookup
                     "grades" "Tom" ltac:(intros [|[|[|[|[|[|[]]]]]]]; discriminate))).
    reflexivity.
Defined.

(** Malformed paths: a path that does not start with the base path makes
    the handler panic; a path whose remainder after the base path has no
    ["/"] (no [<group>/<key>] split) gets 400 ["bad request"], and no group
    is consulted. *)
Theorem serve_bad_paths p lookup :
  (forall path, String.prefix (basePath p) path = false ->
     ServeHTTP p lookup path =
       Some (ServePanic ("HTTPPool serving unexpected path: " ++ path)%string, None)) /\
  (forall rest, no_slash rest ->
     ServeHTTP p lookup (basePath p ++ rest) = Some (HttpError 400 "bad request", None)).
Proof.
  split.
  - intros path H. unfold ServeHTTP. rewrite H. reflexivity.
  - intros rest H. rewrite serve_split, (split_slash_none _ H). reflexivity.
Qed.

Lemma serve_bad_paths_witness :
  ServeHTTP (NewHTTPPool "http://localhost:8001") scores_lookup "/other/scores/Tom" =
    Some (ServePanic "HTTPPool serving unexpected path: /other/scores/Tom", None) /\
  ServeHTTP (NewHTTPPool "http://localhost:8001") scores_lookup "/_geecache/scores" =
    Some (HttpError 400 "bad request", None).
Proof.
  split.
  - apply (proj1 (serve_bad_paths (NewHTTPPool "http://localhost:8001") scores_lookup)). reflexivity.
  - apply (proj2 (serve_bad_paths (NewHTTPPool "http://localhost:8001") scores_lookup) "scores").
    intros [|[|[|[|[|[|[]]]]]]]; discriminate.
Defined.

(** A request [<basePath><group>/] with an empty key, for a registered
    group, is answered 500 ["key is required"] without consulting the
    group's cache, loader or peers: the cache is returned unchanged. *)
Theorem serve_empty_key p lookup gn g c :
  no_slash gn -> lookup gn = Some (g, c) ->
  ServeHTTP p lookup (basePath p ++ gn ++ "/")%string =
    Some (HttpError 500 "key is required", Some c).
Proof.
  intros Hgn Hl. rewrite serve_split.
  change (gn ++ "/")%string with (gn ++ "/" ++ EmptyString)%string.
  rewrite (split_slash_app _ _ Hgn), Hl. reflexivity.
Qed.

Lemma serve_empty_key_witness :
  ServeHTTP (NewHTTPPool "http://localhost:8001") scores_lookup "/_geecache/scores/" =
    Some (HttpError 500 "key is required", Some (Group.mkShell None 2048)).
Proof.
  apply (serve_empty_key (NewHTTPPool "http://localhost:8001") scores_lookup "scores"
           (Group.mkGroup "scores" (fun _ => Group.Ok "630"%string) None) (Group.mkShell None 2048)).
  - intros [|[|[|[|[|[|[]]]]]]]; discriminate.
  - reflexivity.
Defined.

End ServeExtra.

(* ------------------------------------------------------------------ *)
(** ** Further properties of the coalescer *)

Module SingleFlightExtra.
Import SingleFlight SingleFlightFacts.
Section Records.
Context {R : Type}.
Implicit Types (s : State R).

(** Caller [t] is running [fn] for record [c] of [key], has stored its
    result and not yet deleted the record, or left [Do] by a panic of
    [fn]. *)
Definition busy (t : option (pc R)) (key : string) (c : nat) : Prop :=
  t = Some (Running key c) \/ t = Some (Finished key c) \/ t = Some (Panicked key c).

Lemma busy_insert_ne (l : list (pc R)) i j t key c :
  j <> i -> busy (l !! j) key c -> busy (<[i := t]> l !! j) key c.
Proof. intros Hne Hb. rewrite list_lookup_insert_ne by congruence. exact Hb. Qed.

Lemma busy_lt (l : list (pc R)) j key c : busy (l !! j) key c -> (j < length l)%nat.
Proof. intros [Hj|[Hj|Hj]]; eapply lookup_lt_Some; exact Hj. Qed.

Lemma m_owned s : reachable s ->
  forall key c, m s !! key = Some c -> exists j, busy (threads s !! j) key c.
Proof.
  induction 1 as [|s s' Hr IH Hs].
  - intros key c H. cbn [init m] in H. rewrite lookup_empty in H. discriminate.
  - destruct Hs as [s key0|s i key0 c0 Hi Hk|s i key0 Hi Hk|s i key0 c0 r0 Hi
                   |s i key0 c0 r0 Hi Hc|s i key0 c0 r0 Hi Hc|s i key0 c0 Hi];
      unfold set_thread; cbn [m calls next threads log]; intros key c H.
    + destruct (IH _ _ H) as [j Hj]. exists j.
      unfold busy. rewrite lookup_app_l by exact (busy_lt _ _ _ _ Hj). exact Hj.
    + destruct (IH _ _ H) as [j Hj]. exists j. apply busy_insert_ne; [|exact Hj].
      intros ->. destruct Hj as [Hj|[Hj|Hj]]; congruence.
    + destruct (decide (key = key0)) as [->|Hne].
      * rewrite lookup_insert_eq in H. injection H as <-. exists i. left.
        apply list_lookup_insert_eq. eapply lookup_lt_Some, Hi.
      * rewrite lookup_insert_ne in H by congruence. destruct (IH _ _ H) as [j Hj].
        exists j. apply busy_insert_ne; [|exact Hj]. intros ->.
        destruct Hj as [Hj|[Hj|Hj]]; congruence.
    + destruct (IH _ _ H) as [j Hj]. exists j. destruct (decide (j = i)) as [->|Hne].
      * destruct Hj as [Hj|[Hj|Hj]]; rewrite Hi in Hj; [injection Hj as -> -> | discriminate | discriminate].
        right. left. apply list_lookup_insert_eq. eapply lookup_lt_Some, Hi.
      * apply busy_insert_ne; assumption.
    + destruct (decide (key = key0)) as [->|Hne].
      * rewrite lookup_delete_eq in H. discriminate.
      * rewrite lookup_delete_ne in H by congruence. destruct (IH _ _ H) as [j Hj].
        exists j. apply busy_insert_ne; [|exact Hj]. intros ->.
        destruct Hj as [Hj|[Hj|Hj]]; congruence.
    + destruct (IH _ _ H) as [j Hj]. exists j. apply busy_insert_ne; [|exact Hj].
      intros ->. destruct Hj as [Hj|[Hj|Hj]]; congruence.
    + destruct (IH _ _ H) as [j Hj]. exists j. destruct (decide (j = i)) as [->|Hne].
      * destruct Hj as [Hj|[Hj|Hj]]; rewrite Hi in Hj; [injection Hj as -> -> | discriminate | discriminate].
        right. right. apply list_lookup_insert_eq. eapply lookup_lt_Some, Hi.
      * apply busy_insert_ne; assumption.
Qed.

(** A caller that left [Do] by a panic stays so: no step changes it. *)
Lemma panicked_step s s' i key c :
  step s s' -> threads s !! i = Some (Panicked key c) -> threads s' !! i = Some (Panicked key c).
Proof.
  intros Hs Hi.
  destruct Hs as [s key0|s j key0 c0 Hj Hk|s j key0 Hj Hk|s j key0 c0 r0 Hj
                 |s j key0 c0 r0 Hj Hc|s j key0 c0 r0 Hj Hc|s j key0 c0 Hj];
    unfold set_thread; cbn [threads].
  1: (rewrite lookup_app_l; [exact Hi|]; eapply lookup_lt_Some, Hi).
  all: rewrite list_lookup_insert_ne; [exact Hi|]; intros ->; congruence.
Qed.

Lemma panicked_rtc s s' i key c :
  reachable s -> threads s !! i = Some (Panicked key c) -> rtc step s s' ->
  reachable s' /\ threads s' !! i = Some (Panicked key c).
Proof.
  intros Hr Hi Hrtc. revert Hr Hi.
  induction Hrtc as [x|x y z Hxy Hyz IH]; intros Hr Hi; [auto|].
  apply IH; [eapply reach_step; eauto | eapply panicked_step; eauto].
Qed.

(** [g.m] never keeps a record that no caller accounts for: every record
    in it belongs to a caller still running [fn] for that key, about to
    delete it, or whose [fn] panicked (and which therefore never deletes
    it).  So once no caller is in one of these three states (all callers
    have returned normally, are waiting, or have not started), [g.m] is
    empty. *)
Theorem records_owned s :
  reachable s ->
  (forall key c, m s !! key = Some c ->
     exists j, threads s !! j = Some (Running key c) \/ threads s !! j = Some (Finished key c) \/
               threads s !! j = Some (Panicked key c)) /\
  ((forall j key c, threads s !! j <> Some (Running key c) /\ threads s !! j <> Some (Finished key c) /\
                    threads s !! j <> Some (Panicked key c)) ->
   m s = ∅).
Proof.
  intros Hr. split.
  - exact (m_owned s Hr).
  - intros Hidle. apply map_eq. intros key. rewrite lookup_empty.
    destruct (m s !! key) as [c|] eqn:Hk; [|reflexivity].
    destruct (m_owned s Hr key c Hk) as [j [Hj|[Hj|Hj]]]; exfalso;
      destruct (Hidle j key c) as (H1 & H2 & H3); contradiction.
Qed.

(** When [fn] panics, [Do] leaves without [c.wg.Done()] and without
    [delete(g.m, key)]: from then on, whatever the other callers do, the
    record stays in [g.m] for [key], no caller ever returns from it, and
    every later caller of [Do] for [key] attaches to it (and waits for
    ever) instead of invoking [fn]. *)
Theorem panic_leaks_record s s' i key c :
  reachable s -> threads s !! i = Some (Panicked key c) -> rtc step s s' ->
  m s' !! key = Some c /\
  (forall j k r b, threads s' !! j <> Some (Returned k c r b)) /\
  (forall s'' j, step s' s'' -> threads s' !! j = Some (Enter key) ->
     threads s'' !! j <> Some (Enter key) -> threads s'' !! j = Some (Waiting key c)).
Proof.
  intros Hr Hi Hrtc. destruct (panicked_rtc _ _ _ _ _ Hr Hi Hrtc) as [Hr' Hi'].
  destruct (reachable_Inv s' Hr') as [Hm Hrf Ho Hb Hrun Hret Hrem Hnd Hlog Hpan].
  destruct (Hpan _ _ _ Hi') as [Hk Hc].
  split; [exact Hk|split].
  - intros j k r b Hj. rewrite (Hret _ _ _ _ _ Hj) in Hc. discriminate.
  - intros s'' j Hs Hj Hmoved.
    destruct Hs as [x key0|x j0 key0 c0 Hj0 Hk0|x j0 key0 Hj0 Hk0|x j0 key0 c0 r0 Hj0
                   |x j0 key0 c0 r0 Hj0 Hc0|x j0 key0 c0 r0 Hj0 Hc0|x j0 key0 c0 Hj0];
      unfold set_thread in *; cbn [m calls next threads log] in *.
    + exfalso. apply Hmoved. rewrite lookup_app_l; [exact Hj | eapply lookup_lt_Some, Hj].
    + destruct (decide (j0 = j)) as [->|Hne].
      * rewrite Hj in Hj0. injection Hj0 as <-. rewrite Hk in Hk0. injection Hk0 as <-.
        apply list_lookup_insert_eq. eapply lookup_lt_Some, Hj.
      * exfalso. apply Hmoved. rewrite list_lookup_insert_ne by exact Hne. exact Hj.
    + destruct (decide (j0 = j)) as [->|Hne].
      * rewrite Hj in Hj0. injection Hj0 as <-. congruence.
      * exfalso. apply Hmoved. rewrite list_lookup_insert_ne by exact Hne. exact Hj.
    + destruct (decide (j0 = j)) as [->|Hne]; [congruence|].
      exfalso. apply Hmoved. rewrite list_lookup_insert_ne by exact Hne. exact Hj.
    + destruct (decide (j0 = j)) as [->|Hne]; [congruence|].
      exfalso. apply Hmoved. rewrite list_lookup_insert_ne by exact Hne. exact Hj.
    + destruct (decide (j0 = j)) as [->|Hne]; [congruence|].
      exfalso. apply Hmoved. rewrite list_lookup_insert_ne by exact Hne. exact Hj.
    + destruct (decide (j0 = j)) as [->|Hne]; [congruence|].
      exfalso. apply Hmoved. rewrite list_lookup_insert_ne by exact Hne. exact Hj.
Qed.

End Records.

(** The caller whose [fn] panicked still owns the record it left in [g.m]. *)
Lemma records_owned_witness :
  exists s : State string, reachable s /\ m s !! "K"%string = Some 0%nat /\
    exists j, threads s !! j = Some (Running "K" 0%nat) \/ threads s !! j = Some (Finished "K" 0%nat) \/
              threads s !! j = Some (Panicked "K" 0%nat).
Proof.
  pose proof (reach_step _ _ reach_init (step_spawn (init (R:=string)) "K")) as H1.
  match type of H1 with reachable ?x =>
    pose proof (reach_step _ _ H1 (step_create x 0%nat "K" eq_refl eq_refl)) as H2 end.
  match type of H2 with reachable ?x =>
    pose proof (reach_step _ _ H2 (step_fn_panic x 0%nat "K" 0%nat eq_refl)) as H3 end.
  eexists. split; [exact H3|]. split; [reflexivity|].
  apply (proj1 (records_owned _ H3)). reflexivity.
Defined.

(** [fn] panics in the first caller; a second caller then enters [Do("K")]
    and finds the leaked record. *)
Lemma panic_leaks_record_witness :
  exists s s' : State string, reachable s /\ threads s !! 0%nat = Some (Panicked "K" 0%nat) /\
    rtc step s s' /\ m s' !! "K"%string = Some 0%nat /\ threads s' !! 1%nat = Some (Enter "K").
Proof.
  pose proof (reach_step _ _ reach_init (step_spawn (init (R:=string)) "K")) as H1.
  match type of H1 with reachable ?x =>
    pose proof (reach_step _ _ H1 (step_create x 0%nat "K" eq_refl eq_refl)) as H2 end.
  match type of H2 with reachable ?x =>
    pose proof (reach_step _ _ H2 (step_fn_panic x 0%nat "K" 0%nat eq_refl)) as H3 end.
  match type of H3 with reachable ?x =>
    pose proof (step_spawn x "K") as S4;
    pose proof (rtc_l _ _ _ _ S4 (rtc_refl _ _)) as R4 end.
  eexists _, _. split; [exact H3|]. split; [reflexivity|]. split; [exact R4|].
  split; [|reflexivity].
  exact (proj1 (panic_leaks_record _ _ 0%nat "K" 0%nat H3 eq_refl R4)).
Defined.

End SingleFlightExtra.
